(** * Crab Pong: a shallow embedding of the simulation core of [src/App.tsx]

    The game is a React component tree.  Its logic lives in four places:
    - [CrabPaddle]: the [keydown] handler and the per-frame [useFrame]
      callback of a paddle;
    - [Ball]: the per-frame [useFrame] callback of the ball;
    - [App]: the [handleScore] and [startGame] reducers over the React state;
    - [GameScene]: the wiring of refs and props between them.

    Number model.  JavaScript numbers are binary64.  The model computes
    with rationals ([Q], numeric equality [==]), which contain every
    finite double.  Where what the program does hangs on rounding, the
    model rounds as the program does: [binary64] is round to nearest, ties
    to even, of IEEE 754 binary64, and [binary32] that of the
    [Float32Array] store.  This is so in the crabs' interpolation and in
    the bubbles.  The ball's arithmetic is left exact; what is stated of it
    are comparisons, sign changes, clamps and resets to literals, which
    rounding does not disturb.  The model has no infinities and no NaN: a
    result beyond the largest double is rounded as if the exponent range
    went on.

    [Math.random ()] is called by several components.  The oracle
    [rand : nat -> Q] gives the values returned to the ball's frame
    callback, in order; the draws of [Arena] and [Bubbles] at render time go
    elsewhere and are not modelled.

    Library functions of three.js are modelled from their definitions:
    [MathUtils.clamp (v, lo, hi) = Math.max (lo, Math.min (hi, v))],
    [MathUtils.lerp (x, y, t) = (1 - t) * x + t * y], [Vector3.set] and
    [Vector3.copy] overwrite the three coordinates. *)

From Stdlib Require Import QArith Qabs Lqa Bool List String Lia PeanoNat.
From Stdlib Require Import Znat.
Import ListNotations.
Open Scope Q_scope.

(** ** Numbers *)

(** JavaScript [a < b] on numbers. *)
Definition Qltb (a b : Q) : bool :=
  match a ?= b with Lt => true | _ => false end.

Infix "<?" := Qltb (at level 70, no associativity) : Q_scope.

(** ** Rounding *)

(** [2 ^ e] for an integer [e]. *)
Definition pow2 (e : Z) : Q :=
  match e with
  | Z0 => 1
  | Zpos p => inject_Z (Zpos (2 ^ p))
  | Zneg p => 1 # (2 ^ p)
  end.

(** The integer nearest to [n / d], the even one of two equally near. *)
Definition roundHalfEven (n : Z) (d : positive) : Z :=
  let q := (n / Zpos d)%Z in
  match (2 * (n mod Zpos d) ?= Zpos d)%Z with
  | Lt => q
  | Gt => (q + 1)%Z
  | Eq => if Z.even q then q else (q + 1)%Z
  end.

(** The integer part of the binary logarithm of [n / d]. *)
Definition ilog2 (n d : positive) : Z :=
  let k := (Z.log2 (Zpos n) - Z.log2 (Zpos d))%Z in
  if (Zpos n # d) <? pow2 k then (k - 1)%Z else k.

(** [n / d] rounded to a multiple of [2 ^ e], where [e] leaves [prec]
    significant bits, or is [emin] in the subnormal range. *)
Definition roundPos (prec emin : Z) (n d : positive) : Q :=
  let e := Z.max (ilog2 n d - (prec - 1)) emin in
  let s := (Zpos n # d) * pow2 (- e) in
  inject_Z (roundHalfEven (Qnum s) (Qden s)) * pow2 e.

Definition roundTo (prec emin : Z) (q : Q) : Q :=
  match Qnum (Qred q) with
  | Z0 => 0
  | Zpos n => roundPos prec emin n (Qden (Qred q))
  | Zneg n => - roundPos prec emin n (Qden (Qred q))
  end.

(** The double nearest to [q]: 53 significant bits, least exponent
    [-1074]. *)
Definition binary64 : Q -> Q := roundTo 53 (-1074).

(** The single nearest to [q]: 24 significant bits, least exponent
    [-149]. *)
Definition binary32 : Q -> Q := roundTo 24 (-149).

Module Math.
Definition max (a b : Q) : Q := if a <? b then b else a.
Definition min (a b : Q) : Q := if b <? a then b else a.
Definition abs (a : Q) : Q := Qabs a.
End Math.

(** [THREE.MathUtils]. *)
Module MathUtils.
Definition clamp (value lo hi : Q) : Q := Math.max lo (Math.min hi value).
(** [(1 - t) * x + t * y], each of the four operations rounded. *)
Definition lerp (x y t : Q) : Q :=
  binary64 (binary64 (binary64 (1 - t) * x) + binary64 (t * y)).
End MathUtils.

Record Vector3 : Type := mkVector3 { x : Q; y : Q; z : Q }.

(** ** Game constants *)

Definition ARENA_WIDTH : Q := 12.
Definition ARENA_HEIGHT : Q := 8.
Definition PADDLE_WIDTH : Q := 2.5.
Definition BALL_SPEED : Q := 8.
Definition PADDLE_SPEED : Q := 10.
Definition WINNING_SCORE : nat := 5.

(** ** CrabPaddle *)

(** The mutable state of one [CrabPaddle]: the lateral coordinate of
    [groupRef.current.position] and the [targetZ] ref.  The other two
    coordinates of the group are the [position] prop and never change. *)
Record Paddle : Type := mkPaddle { position_z : Q; targetZ : Q }.

(** [useRef(position[2])] with the [position] prop of [GameScene], whose
    lateral coordinate is [0] for both paddles. *)
Definition initPaddle : Paddle := mkPaddle 0 0.

Definition keyUp (key : string) : bool :=
  (String.eqb key "ArrowUp" || String.eqb key "w")%bool.
Definition keyDown (key : string) : bool :=
  (String.eqb key "ArrowDown" || String.eqb key "s")%bool.

(** [handleKeyDown], registered on [window] when [!isAI]. *)
Definition handleKeyDown (key : string) (p : Paddle) : Paddle :=
  let p1 :=
    if keyUp key
    then mkPaddle (position_z p)
           (Math.max (targetZ p - 0.5) (- ARENA_HEIGHT / 2 + PADDLE_WIDTH / 2))
    else p in
  if keyDown key
  then mkPaddle (position_z p1)
         (Math.min (targetZ p1 + 0.5) (ARENA_HEIGHT / 2 - PADDLE_WIDTH / 2))
  else p1.

(** The [useFrame] callback of [CrabPaddle] (the claw animation is
    cosmetic and left out).  It has no [isPaused] input.  The factor
    handed to [lerp] is the rounded product. *)
Definition CrabPaddle_useFrame (isAI : bool) (ballPosition : Vector3)
    (delta : Q) (p : Paddle) : Paddle :=
  if isAI then
    let targetAIZ :=
      MathUtils.clamp (z ballPosition)
        (- ARENA_HEIGHT / 2 + PADDLE_WIDTH / 2)
        (ARENA_HEIGHT / 2 - PADDLE_WIDTH / 2) in
    mkPaddle (MathUtils.lerp (position_z p) targetAIZ (binary64 (delta * 3)))
      (targetZ p)
  else
    mkPaddle
      (MathUtils.lerp (position_z p) (targetZ p)
         (binary64 (delta * PADDLE_SPEED)))
      (targetZ p).

(** ** App: the React state and its two reducers *)

(** The argument type [1 | 2] of [onScore]: [P1] is the player (left,
    red, "You"), [P2] is the AI (right, blue). *)
Inductive Player : Type := P1 | P2.

Inductive GameState : Type := menu | playing | gameover.

Record App : Type := mkApp {
  score1 : nat;
  score2 : nat;
  gameState : GameState;
  winner : option Player
}.

Definition initApp : App := mkApp 0 0 menu None.

Definition handleScore (player : Player) (a : App) : App :=
  match player with
  | P1 =>
      let newScore := (score1 a + 1)%nat in
      if (WINNING_SCORE <=? newScore)%nat
      then mkApp newScore (score2 a) gameover (Some P1)
      else mkApp newScore (score2 a) (gameState a) (winner a)
  | P2 =>
      let newScore := (score2 a + 1)%nat in
      if (WINNING_SCORE <=? newScore)%nat
      then mkApp (score1 a) newScore gameover (Some P2)
      else mkApp (score1 a) newScore (gameState a) (winner a)
  end.

Definition startGame (a : App) : App := mkApp 0 0 playing None.

(** The [isPaused] prop handed to [GameScene] and on to [Ball]. *)
Definition isPaused (a : App) : bool :=
  match gameState a with playing => false | _ => true end.

(** ** Ball *)

Record BallState : Type := mkBall { position : Vector3; velocity : Vector3 }.

(** The mesh is created at [[0, 0.5, 0]]; the velocity ref at
    [(BALL_SPEED, 0, BALL_SPEED * 0.5)]. *)
Definition center : Vector3 := mkVector3 0 0.5 0.
Definition initBall : BallState :=
  mkBall center (mkVector3 BALL_SPEED 0 (BALL_SPEED * 0.5)).

(** "Update position". *)
Definition integrate (delta : Q) (b : BallState) : BallState :=
  let p := position b in
  let v := velocity b in
  mkBall (mkVector3 (x p + x v * delta) (y p) (z p + z v * delta)) v.

(** "Top/bottom wall collision". *)
Definition wallHit (b : BallState) : bool :=
  ((ARENA_HEIGHT / 2 - 0.3 <? z (position b))
   || (z (position b) <? - ARENA_HEIGHT / 2 + 0.3))%bool.

Definition wallCollision (b : BallState) : BallState :=
  let p := position b in
  let v := velocity b in
  if wallHit b
  then mkBall
         (mkVector3 (x p) (y p)
            (MathUtils.clamp (z p)
               (- ARENA_HEIGHT / 2 + 0.3) (ARENA_HEIGHT / 2 - 0.3)))
         (mkVector3 (x v) (y v) (z v * -1))
  else b.

(** "Paddle collision (left - player)".  [paddle1Ref] is a React
    [RefObject], whose [current] may be [null]. *)
Definition paddle1Hit (paddle1Ref : option Vector3) (b : BallState) : bool :=
  match paddle1Ref with
  | Some p1 =>
      ((x (position b) <? - ARENA_WIDTH / 2 + 1.5)
       && (Math.abs (z (position b) - z p1) <? PADDLE_WIDTH / 2 + 0.3))%bool
  | None => false
  end.

Definition paddle1Collision (paddle1Ref : option Vector3) (b : BallState)
    : BallState :=
  let p := position b in
  let v := velocity b in
  match paddle1Ref with
  | Some p1 =>
      if paddle1Hit paddle1Ref b
      then mkBall
             (mkVector3 (- ARENA_WIDTH / 2 + 1.5) (y p) (z p))
             (mkVector3 (Math.abs (x v) * 1.05) (y v)
                (z v + (z p - z p1) * 2))
      else b
  | None => b
  end.

(** "Paddle collision (right - AI)". *)
Definition paddle2Hit (paddle2Ref : option Vector3) (b : BallState) : bool :=
  match paddle2Ref with
  | Some p2 =>
      ((ARENA_WIDTH / 2 - 1.5 <? x (position b))
       && (Math.abs (z (position b) - z p2) <? PADDLE_WIDTH / 2 + 0.3))%bool
  | None => false
  end.

Definition paddle2Collision (paddle2Ref : option Vector3) (b : BallState)
    : BallState :=
  let p := position b in
  let v := velocity b in
  match paddle2Ref with
  | Some p2 =>
      if paddle2Hit paddle2Ref b
      then mkBall
             (mkVector3 (ARENA_WIDTH / 2 - 1.5) (y p) (z p))
             (mkVector3 (- Math.abs (x v) * 1.05) (y v)
                (z v + (z p - z p2) * 2))
      else b
  | None => b
  end.

(** "Clamp velocity". *)
Definition clampVelocity (b : BallState) : BallState :=
  let v := velocity b in
  mkBall (position b)
    (mkVector3 (x v) (y v)
       (MathUtils.clamp (z v) (- BALL_SPEED * 1.5) (BALL_SPEED * 1.5))).

(** What one run of the ball's frame callback leaves behind: the ball,
    the calls [onScore (player)] it made, in order, and the number of
    [Math.random ()] draws the ball's callback has made so far. *)
Record Tick : Type := mkTick {
  tickBall : BallState;
  scored : list Player;
  draws : nat
}.

Section Simulation.

(** [rand n] is what [Math.random ()] returns to the ball's frame callback
    the [n]-th time that callback calls it. *)
Variable rand : nat -> Q.

(** "Score": the two tests, in source order. *)
Definition scoreLeft (t : Tick) : Tick :=
  if x (position (tickBall t)) <? - ARENA_WIDTH / 2 - 1
  then mkTick
         (mkBall (mkVector3 0 0.5 0)
            (mkVector3 BALL_SPEED 0 ((rand (draws t) - 0.5) * BALL_SPEED)))
         (scored t ++ [P2]) (S (draws t))
  else t.

Definition scoreRight (t : Tick) : Tick :=
  if ARENA_WIDTH / 2 + 1 <? x (position (tickBall t))
  then mkTick
         (mkBall (mkVector3 0 0.5 0)
            (mkVector3 (- BALL_SPEED) 0
               ((rand (draws t) - 0.5) * BALL_SPEED)))
         (scored t ++ [P1]) (S (draws t))
  else t.

(** Everything the callback does after "Update position". *)
Definition resolve (paddle1Ref paddle2Ref : option Vector3) (n : nat)
    (b : BallState) : Tick :=
  let b1 := wallCollision b in
  let b2 := paddle1Collision paddle1Ref b1 in
  let b3 := paddle2Collision paddle2Ref b2 in
  let t := scoreRight (scoreLeft (mkTick b3 [] n)) in
  mkTick (clampVelocity (tickBall t)) (scored t) (draws t).

(** The body of the [useFrame] callback of [Ball] past its guard. *)
Definition Ball_update (paddle1Ref paddle2Ref : option Vector3)
    (delta : Q) (n : nat) (b : BallState) : Tick :=
  resolve paddle1Ref paddle2Ref n (integrate delta b).

(** ** GameScene: the whole world and one rendered frame *)

Record World : Type := mkWorld {
  app : App;
  paddle1 : Paddle;            (* the player's crab *)
  paddle2 : Paddle;            (* the AI's crab *)
  ball : BallState;
  ballPositionRef : Vector3;   (* shared with the AI paddle *)
  ballDraws : nat              (* draws made by the ball's callback *)
}.

(** The two refs [GameScene] creates for collision detection.  Its own
    [useFrame] callback only queries the DOM and writes nothing, so both
    refs keep these values for ever. *)
Definition paddle1Ref : option Vector3 :=
  Some (mkVector3 (- ARENA_WIDTH / 2 + 1) 0.5 0).
Definition paddle2Ref : option Vector3 :=
  Some (mkVector3 (ARENA_WIDTH / 2 - 1) 0.5 0).

Definition initWorld : World :=
  mkWorld initApp initPaddle initPaddle initBall (mkVector3 0 0.5 0) 0.

(** The [useFrame] callback of [Ball], with its [isPaused] guard, the
    copy into [ballPositionRef], and the [onScore] calls applied to the
    React state.  The guard reads the phase as it was when the frame
    began; the state updates queued by [onScore] are taken as applied
    before the next event. *)
Definition Ball_useFrame (delta : Q) (w : World) : World :=
  if isPaused (app w) then w
  else
    let t := Ball_update paddle1Ref paddle2Ref delta (ballDraws w) (ball w) in
    mkWorld (fold_left (fun a pl => handleScore pl a) (scored t) (app w))
      (paddle1 w) (paddle2 w) (tickBall t)
      (position (integrate delta (ball w)))
      (draws t).

(** One rendered frame: the callbacks run in subscription order, the
    player's crab, the AI's crab, then the ball. *)
Definition frame (delta : Q) (w : World) : World :=
  let w1 :=
    mkWorld (app w)
      (CrabPaddle_useFrame false (ballPositionRef w) delta (paddle1 w))
      (paddle2 w) (ball w) (ballPositionRef w) (ballDraws w) in
  let w2 :=
    mkWorld (app w1) (paddle1 w1)
      (CrabPaddle_useFrame true (ballPositionRef w1) delta (paddle2 w1))
      (ball w1) (ballPositionRef w1) (ballDraws w1) in
  Ball_useFrame delta w2.

(** What can happen to the page. *)
Inductive Event : Type :=
| KeyDown (key : string)     (* a [keydown] event on [window] *)
| Frame (delta : Q)          (* one animation frame *)
| Click.                     (* the Start Game / Play Again button *)

(** The button is rendered by the menu and game-over overlays only. *)
Definition step (e : Event) (w : World) : World :=
  match e with
  | KeyDown key =>
      mkWorld (app w) (handleKeyDown key (paddle1 w)) (paddle2 w)
        (ball w) (ballPositionRef w) (ballDraws w)
  | Frame delta => frame delta w
  | Click =>
      match gameState (app w) with
      | playing => w
      | _ =>
          mkWorld (startGame (app w)) (paddle1 w) (paddle2 w)
            (ball w) (ballPositionRef w) (ballDraws w)
      end
  end.

Fixpoint run (es : list Event) (w : World) : World :=
  match es with
  | [] => w
  | e :: es' => run es' (step e w)
  end.

End Simulation.

(** * Vocabulary of the statements *)

(** Where [GameScene] puts the two crabs along the width: the player on
    the left, the AI on the right. *)
Definition paddleX (p : Player) : Q :=
  match p with
  | P1 => - ARENA_WIDTH / 2 + 1
  | P2 => ARENA_WIDTH / 2 - 1
  end.

Definition opponent (p : Player) : Player :=
  match p with P1 => P2 | P2 => P1 end.

(** An along-width velocity points toward a player's side. *)
Definition toward (p : Player) (vx : Q) : Prop := 0 < vx * paddleX p.

(** The ball is beyond the arena edge that [p] defends, by the margin. *)
Definition conceded (p : Player) (b : BallState) : Prop :=
  match p with
  | P1 => x (position b) < - ARENA_WIDTH / 2 - 1
  | P2 => ARENA_WIDTH / 2 + 1 < x (position b)
  end.

(** The ball as the score tests see it. *)
Definition beforeScore (p1 p2 : option Vector3) (delta : Q) (b : BallState)
    : BallState :=
  paddle2Collision p2 (paddle1Collision p1 (wallCollision (integrate delta b))).

Definition rand0 : nat -> Q := fun _ => 0.

(** The first point of a game: the opening serve passes the AI's side. *)
Definition firstPoint : list Event := Click :: repeat (Frame 0.1) 8.

(** What holds of the ball in every reachable state. *)
Definition ballInv (b : BallState) : Prop :=
  y (position b) = 0.5 /\ y (velocity b) = 0 /\
  BALL_SPEED <= Qabs (x (velocity b)) /\
  Qabs (z (velocity b)) <= 1.5 * BALL_SPEED.

(** A whole game in which the player presses [s] once and then watches:
    the serves alternate and the player wins 5-4. *)
Definition game_5_4 : list Event :=
  Click :: KeyDown "s" :: repeat (Frame 0.1) 81.

(** The same game one frame before the last point. *)
Definition game_4_4 : list Event :=
  Click :: KeyDown "s" :: repeat (Frame 0.1) 80.


Definition notClick (e : Event) : Prop :=
  match e with Click => False | _ => True end.

(** What holds of the React state and the ball together in every
    reachable state: a game in play has no winner yet, and outside play
    the ball rests at the centre. *)
Definition appInv (w : World) : Prop :=
  (gameState (app w) = playing ->
   (score1 (app w) < WINNING_SCORE)%nat /\ (score2 (app w) < WINNING_SCORE)%nat)
  /\ (gameState (app w) <> playing -> position (ball w) = center).

(** The legal range of a paddle's lateral position. *)
Definition inRange (q : Q) : Prop :=
  - ARENA_HEIGHT / 2 + PADDLE_WIDTH / 2 <= q
  <= ARENA_HEIGHT / 2 - PADDLE_WIDTH / 2.



(** * The rest of the file *)

(** ** App: the heading of the game-over overlay *)

(** [winner === 1 ? 'You Win!' : 'AI Wins!'], rendered when the phase is
    [gameover]. *)
Definition gameOverTitle (a : App) : string :=
  match winner a with
  | Some P1 => "You Win!"
  | _ => "AI Wins!"
  end.

(** ** Bubbles *)

Definition count : nat := 50.

(** A store [posArray[i] = v] into a typed array: out of range it does
    nothing. *)
Fixpoint write (i : nat) (v : Q) (arr : list Q) : list Q :=
  match arr, i with
  | [], _ => []
  | _ :: rest, O => v :: rest
  | a :: rest, S i' => a :: write i' v rest
  end.

(** One turn of the loop of the [useFrame] callback of [Bubbles]:
    [posArray[i * 3 + 1] += delta * 0.5], computed in binary64 and stored
    into the [Float32Array] as a single, then the test on the stored
    element.  A read out of range, which in JavaScript gives [undefined],
    is given as [0] here; the store it feeds is out of range too and does
    nothing. *)
Definition Bubbles_body (delta : Q) (posArray : list Q) (i : nat) : list Q :=
  let a1 :=
    write (i * 3 + 1)
      (binary32
         (binary64 (nth (i * 3 + 1) posArray 0 + binary64 (delta * 0.5))))
      posArray in
  if 10 <? nth (i * 3 + 1) a1 0 then write (i * 3 + 1) 0 a1 else a1.

(** The [useFrame] callback of [Bubbles]: [for (let i = 0; i < count; i++)]. *)
Definition Bubbles_useFrame (delta : Q) (posArray : list Q) : list Q :=
  fold_left (Bubbles_body delta) (seq 0 count) posArray.

(** What the callback does to one height. *)
Definition rise (delta v : Q) : Q :=
  if 10 <? binary32 (binary64 (v + binary64 (delta * 0.5))) then 0
  else binary32 (binary64 (v + binary64 (delta * 0.5))).

(** ** More vocabulary *)

Definition isKey (e : Event) : bool :=
  match e with KeyDown _ => true | _ => false end.

(** A run with its key presses taken out. *)
Definition eraseKeys (es : list Event) : list Event :=
  filter (fun e => negb (isKey e)) es.

(** Two worlds that differ at most in the player's crab. *)
Definition sameGame (w1 w2 : World) : Prop :=
  app w1 = app w2 /\ paddle2 w1 = paddle2 w2 /\ ball w1 = ball w2 /\
  ballPositionRef w1 = ballPositionRef w2 /\ ballDraws w1 = ballDraws w2.

(** How the phase, the scores and the winner go together. *)
Definition matchInv (a : App) : Prop :=
  match gameState a with
  | menu => score1 a = 0%nat /\ score2 a = 0%nat /\ winner a = None
  | playing =>
      (score1 a < WINNING_SCORE)%nat /\ (score2 a < WINNING_SCORE)%nat /\
      winner a = None
  | gameover =>
      (winner a = Some P1 /\ score1 a = WINNING_SCORE /\
       (score2 a < WINNING_SCORE)%nat) \/
      (winner a = Some P2 /\ score2 a = WINNING_SCORE /\
       (score1 a < WINNING_SCORE)%nat)
  end.

(** * Proof tools for the rational comparisons *)

Lemma Qltb_spec (a b : Q) : BoolSpec (a < b) (b <= a) (a <? b).
Proof.
  unfold Qltb. destruct (a ?= b) eqn:E; constructor.
  - apply Qeq_alt in E. rewrite E. apply Qle_refl.
  - now apply Qlt_alt.
  - apply Qlt_le_weak. now apply Qgt_alt.
Qed.

Lemma Qabs_cases (a : Q) :
  (0 <= a /\ Qabs a == a) \/ (a <= 0 /\ Qabs a == - a).
Proof.
  destruct (Qlt_le_dec a 0) as [H|H].
  - right. split; [lra|]. apply Qabs_neg. lra.
  - left. split; [lra|]. now apply Qabs_pos.
Qed.

(** Unfold the game constants and evaluate the closed quotients, which
    linear arithmetic does not look into. *)
Ltac qconst :=
  cbv [ARENA_WIDTH ARENA_HEIGHT PADDLE_WIDTH BALL_SPEED PADDLE_SPEED] in *;
  repeat match goal with
  | |- context [Qdiv ?a ?b] =>
      let v := eval vm_compute in (Qdiv a b) in change (Qdiv a b) with v in *
  | H : context [Qdiv ?a ?b] |- _ =>
      let v := eval vm_compute in (Qdiv a b) in change (Qdiv a b) with v in *
  end.

(** Split on every comparison in sight. *)
Ltac qcase :=
  repeat match goal with
  | |- context [?a <? ?b] => destruct (Qltb_spec a b)
  | H : context [?a <? ?b] |- _ => destruct (Qltb_spec a b)
  end.

(** Replace every absolute value by a fresh number with its two cases. *)
Ltac qabs :=
  unfold Math.abs in *;
  repeat match goal with
  | |- context [Qabs ?a] =>
      let H := fresh "Habs" in
      let v := fresh "abs" in
      destruct (Qabs_cases a) as [[? H]|[? H]];
      revert H; generalize (Qabs a); intros v H
  | H0 : context [Qabs ?a] |- _ =>
      let H := fresh "Habs" in
      let v := fresh "abs" in
      destruct (Qabs_cases a) as [[? H]|[? H]];
      revert H0 H; generalize (Qabs a); intros v H0 H
  end.

Lemma clamp_range (v lo hi : Q) :
  lo <= hi -> lo <= MathUtils.clamp v lo hi <= hi.
Proof.
  intros H. unfold MathUtils.clamp, Math.max, Math.min. qcase; lra.
Qed.

Lemma clamp_inside (v lo hi : Q) :
  lo <= v <= hi -> MathUtils.clamp v lo hi == v.
Proof.
  intros H. unfold MathUtils.clamp, Math.max, Math.min. qcase; lra.
Qed.

(** * Facts about the steps of the ball's frame callback *)

(** The outcome of the two score tests, by cases on where the ball is. *)
Lemma score_cases (rand : nat -> Q) (b : BallState) (n : nat) :
  let t := scoreRight rand (scoreLeft rand (mkTick b [] n)) in
  (x (position b) < - ARENA_WIDTH / 2 - 1 /\
   t = mkTick (mkBall center
                 (mkVector3 BALL_SPEED 0 ((rand n - 0.5) * BALL_SPEED)))
         [P2] (S n))
  \/ (ARENA_WIDTH / 2 + 1 < x (position b) /\
      t = mkTick (mkBall center
                    (mkVector3 (- BALL_SPEED) 0 ((rand n - 0.5) * BALL_SPEED)))
            [P1] (S n))
  \/ (- ARENA_WIDTH / 2 - 1 <= x (position b) <= ARENA_WIDTH / 2 + 1 /\
      t = mkTick b [] n).
Proof.
  unfold scoreRight, scoreLeft; cbn [tickBall scored draws].
  destruct (Qltb_spec (x (position b)) (- ARENA_WIDTH / 2 - 1)) as [H1|H1].
  - left. cbn [tickBall position x scored draws app].
    destruct (Qltb_spec (ARENA_WIDTH / 2 + 1) 0) as [H2|H2].
    + exfalso. qconst. lra.
    + split; [assumption | reflexivity].
  - cbn [tickBall scored draws].
    destruct (Qltb_spec (ARENA_WIDTH / 2 + 1) (x (position b))) as [H2|H2].
    + right; left. split; [assumption | reflexivity].
    + right; right. split; [split; assumption | reflexivity].
Qed.

(** At most one [onScore] call per update. *)
Lemma scored_cases (rand : nat -> Q) p1 p2 delta n b :
  let s := scored (Ball_update rand p1 p2 delta n b) in
  s = [] \/ s = [P1] \/ s = [P2].
Proof.
  unfold Ball_update, resolve; cbn [scored].
  match goal with
  | |- context [scoreRight rand (scoreLeft rand (mkTick ?b3 [] n))] =>
      destruct (score_cases rand b3 n) as [[_ E]|[[_ E]|[_ E]]];
      cbv zeta in E; rewrite E
  end; cbn [scored]; auto.
Qed.

(** The wall, the paddles and the clamp never touch [y]; a score resets it. *)
Lemma wallCollision_y b :
  y (position (wallCollision b)) = y (position b) /\
  y (velocity (wallCollision b)) = y (velocity b).
Proof. unfold wallCollision. destruct (wallHit b); auto. Qed.

Lemma paddle1Collision_y p1 b :
  y (position (paddle1Collision p1 b)) = y (position b) /\
  y (velocity (paddle1Collision p1 b)) = y (velocity b).
Proof.
  unfold paddle1Collision. destruct p1; auto.
  destruct (paddle1Hit _ b); auto.
Qed.

Lemma paddle2Collision_y p2 b :
  y (position (paddle2Collision p2 b)) = y (position b) /\
  y (velocity (paddle2Collision p2 b)) = y (velocity b).
Proof.
  unfold paddle2Collision. destruct p2; auto.
  destruct (paddle2Hit _ b); auto.
Qed.

Lemma Ball_update_y (rand : nat -> Q) p1 p2 delta n b :
  y (position b) = 0.5 -> y (velocity b) = 0 ->
  y (position (tickBall (Ball_update rand p1 p2 delta n b))) = 0.5 /\
  y (velocity (tickBall (Ball_update rand p1 p2 delta n b))) = 0.
Proof.
  intros Hp Hv. unfold Ball_update, resolve; cbn [tickBall].
  match goal with
  | |- context [scoreRight rand (scoreLeft rand (mkTick ?b3 [] n))] =>
      destruct (score_cases rand b3 n) as [[_ E]|[[_ E]|[_ E]]];
      cbv zeta in E; rewrite E
  end; cbn; auto.
  destruct (paddle2Collision_y p2
              (paddle1Collision p1 (wallCollision (integrate delta b))))
    as [-> ->].
  destruct (paddle1Collision_y p1 (wallCollision (integrate delta b)))
    as [-> ->].
  destruct (wallCollision_y (integrate delta b)) as [-> ->].
  cbn. auto.
Qed.

(** The along-width speed through each step. *)
Lemma wallCollision_vx b :
  x (velocity (wallCollision b)) = x (velocity b).
Proof. unfold wallCollision. destruct (wallHit b); reflexivity. Qed.

Lemma paddle1Collision_vx p1 b :
  Qabs (x (velocity (paddle1Collision p1 b))) ==
  if paddle1Hit p1 b then Qabs (x (velocity b)) * 1.05
  else Qabs (x (velocity b)).
Proof.
  unfold paddle1Collision. destruct p1 as [v1|]; [|reflexivity].
  destruct (paddle1Hit (Some v1) b); [|reflexivity].
  cbn [velocity x]. unfold Math.abs.
  apply Qabs_pos. pose proof (Qabs_nonneg (x (velocity b))). nra.
Qed.

Lemma paddle2Collision_vx p2 b :
  Qabs (x (velocity (paddle2Collision p2 b))) ==
  if paddle2Hit p2 b then Qabs (x (velocity b)) * 1.05
  else Qabs (x (velocity b)).
Proof.
  unfold paddle2Collision. destruct p2 as [v2|]; [|reflexivity].
  destruct (paddle2Hit (Some v2) b); [|reflexivity].
  cbn [velocity x]. unfold Math.abs.
  pose proof (Qabs_nonneg (x (velocity b))) as H0.
  rewrite Qabs_neg; nra.
Qed.

(** The two paddle tests exclude each other: a hit on the left puts the
    ball on the left collision plane. *)
Lemma paddle_hits_exclusive p1 p2 b :
  paddle1Hit p1 b = true -> paddle2Hit p2 (paddle1Collision p1 b) = false.
Proof.
  intros H. unfold paddle1Collision. rewrite H.
  destruct p1 as [v1|]; [|discriminate H].
  unfold paddle2Hit. destruct p2 as [v2|]; [|reflexivity].
  cbn [position x].
  destruct (Qltb_spec (ARENA_WIDTH / 2 - 1.5) (- ARENA_WIDTH / 2 + 1.5));
    [exfalso; qconst; lra | reflexivity].
Qed.

Lemma Ball_update_vx (rand : nat -> Q) p1 p2 delta n b :
  BALL_SPEED <= Qabs (x (velocity b)) ->
  BALL_SPEED <= Qabs (x (velocity (tickBall (Ball_update rand p1 p2 delta n b)))).
Proof.
  intros H. unfold Ball_update, resolve; cbn [tickBall].
  match goal with
  | |- context [scoreRight rand (scoreLeft rand (mkTick ?b3 [] n))] =>
      destruct (score_cases rand b3 n) as [[_ E]|[[_ E]|[_ E]]];
      cbv zeta in E; rewrite E
  end; cbn [tickBall clampVelocity velocity x].
  - rewrite Qabs_pos; unfold BALL_SPEED; lra.
  - rewrite Qabs_neg; unfold BALL_SPEED; lra.
  - rewrite paddle2Collision_vx.
    assert (H1 : BALL_SPEED <=
                 Qabs (x (velocity (paddle1Collision p1
                                      (wallCollision (integrate delta b)))))).
    { rewrite paddle1Collision_vx, wallCollision_vx. cbn [integrate velocity].
      destruct (paddle1Hit _ _); unfold BALL_SPEED in *; lra. }
    destruct (paddle2Hit _ _); unfold BALL_SPEED in *; lra.
Qed.

Lemma Ball_update_vz (rand : nat -> Q) p1 p2 delta n b :
  Qabs (z (velocity (tickBall (Ball_update rand p1 p2 delta n b))))
  <= 1.5 * BALL_SPEED.
Proof.
  unfold Ball_update, resolve, clampVelocity; cbn [tickBall velocity z].
  apply Qabs_Qle_condition.
  match goal with
  | |- context [MathUtils.clamp ?v ?lo ?hi] =>
      pose proof (clamp_range v lo hi) as H;
      generalize dependent (MathUtils.clamp v lo hi)
  end.
  intros c H. unfold BALL_SPEED in *. lra.
Qed.

(** * Invariants of the whole game *)

(** An invariant of every event is an invariant of every run. *)
Lemma run_invariant (rand : nat -> Q) (P : World -> Prop) :
  (forall e w, P w -> P (step rand e w)) ->
  forall es w, P w -> P (run rand es w).
Proof.
  intros Hstep es. induction es as [|e es IH]; intros w Hw; cbn [run].
  - exact Hw.
  - apply IH, Hstep, Hw.
Qed.

Lemma run_app (rand : nat -> Q) (es1 es2 : list Event) (w : World) :
  run rand (es1 ++ es2) w = run rand es2 (run rand es1 w).
Proof.
  revert w. induction es1 as [|e es1 IH]; intros w; cbn [run List.app].
  - reflexivity.
  - apply IH.
Qed.

(** What a frame does to the ball and the React state, by phase. *)
Lemma frame_paused (rand : nat -> Q) delta w :
  gameState (app w) <> playing ->
  app (frame rand delta w) = app w /\
  ball (frame rand delta w) = ball w /\
  ballPositionRef (frame rand delta w) = ballPositionRef w /\
  ballDraws (frame rand delta w) = ballDraws w.
Proof.
  intros H. unfold frame, Ball_useFrame, isPaused; cbn [app].
  destruct (gameState (app w)); [| congruence |]; cbn; auto.
Qed.

Lemma frame_playing (rand : nat -> Q) delta w :
  gameState (app w) = playing ->
  let t := Ball_update rand paddle1Ref paddle2Ref delta (ballDraws w) (ball w) in
  app (frame rand delta w) =
    fold_left (fun a pl => handleScore pl a) (scored t) (app w) /\
  ball (frame rand delta w) = tickBall t.
Proof.
  intros H. unfold frame, Ball_useFrame, isPaused;
    cbn [app paddle1 paddle2 ball ballPositionRef ballDraws].
  rewrite H. cbn [app ball]. split; reflexivity.
Qed.

Lemma frame_paddles (rand : nat -> Q) delta w :
  paddle1 (frame rand delta w) =
    CrabPaddle_useFrame false (ballPositionRef w) delta (paddle1 w) /\
  paddle2 (frame rand delta w) =
    CrabPaddle_useFrame true (ballPositionRef w) delta (paddle2 w).
Proof.
  unfold frame, Ball_useFrame; cbn [app paddle1 paddle2 ballPositionRef].
  destruct (isPaused (app w)); cbn; auto.
Qed.

(** Every event leaves the ball alone, except a frame in the playing phase. *)
Lemma step_ball (rand : nat -> Q) e w :
  ball (step rand e w) = ball w \/
  exists delta,
    gameState (app w) = playing /\
    ball (step rand e w) =
      tickBall (Ball_update rand paddle1Ref paddle2Ref delta
                  (ballDraws w) (ball w)).
Proof.
  destruct e as [key|delta|]; cbn [step].
  - left; reflexivity.
  - destruct (gameState (app w)) eqn:E.
    + left. apply frame_paused. congruence.
    + right. exists delta. split; [reflexivity|]. now apply frame_playing.
    + left. apply frame_paused. congruence.
  - left. destruct (gameState (app w)); reflexivity.
Qed.

Lemma ballInv_init : ballInv initBall.
Proof.
  unfold ballInv, initBall, center; cbn [position velocity x y z].
  repeat split; unfold BALL_SPEED.
  - rewrite Qabs_pos; lra.
  - rewrite Qabs_pos; lra.
Qed.

Lemma ballInv_run (rand : nat -> Q) es :
  ballInv (ball (run rand es initWorld)).
Proof.
  apply (run_invariant rand (fun w => ballInv (ball w))).
  - intros e w (Hy & Hvy & Hvx & Hvz).
    destruct (step_ball rand e w) as [->|(delta & _ & ->)].
    + repeat split; assumption.
    + destruct (Ball_update_y rand paddle1Ref paddle2Ref delta
                  (ballDraws w) (ball w) Hy Hvy) as [Hy' Hvy'].
      repeat split; auto using Ball_update_vx, Ball_update_vz.
  - exact ballInv_init.
Qed.

(** The lateral position through each step. *)
Lemma wallCollision_z b :
  - ARENA_HEIGHT / 2 + 0.3 <= z (position (wallCollision b))
  <= ARENA_HEIGHT / 2 - 0.3.
Proof.
  unfold wallCollision, wallHit.
  destruct (Qltb_spec (ARENA_HEIGHT / 2 - 0.3) (z (position b)));
    destruct (Qltb_spec (z (position b)) (- ARENA_HEIGHT / 2 + 0.3));
    cbn [orb position z];
    try (apply clamp_range; qconst; lra).
  split; assumption.
Qed.

Lemma paddle1Collision_z p1 b :
  z (position (paddle1Collision p1 b)) = z (position b).
Proof.
  unfold paddle1Collision. destruct p1; auto.
  destruct (paddle1Hit _ b); auto.
Qed.

Lemma paddle2Collision_z p2 b :
  z (position (paddle2Collision p2 b)) = z (position b).
Proof.
  unfold paddle2Collision. destruct p2; auto.
  destruct (paddle2Hit _ b); auto.
Qed.

Lemma Ball_update_z (rand : nat -> Q) p1 p2 delta n b :
  - ARENA_HEIGHT / 2 + 0.3
  <= z (position (tickBall (Ball_update rand p1 p2 delta n b)))
  <= ARENA_HEIGHT / 2 - 0.3.
Proof.
  unfold Ball_update, resolve; cbn [tickBall].
  match goal with
  | |- context [scoreRight rand (scoreLeft rand (mkTick ?b3 [] n))] =>
      destruct (score_cases rand b3 n) as [[_ E]|[[_ E]|[_ E]]];
      cbv zeta in E; rewrite E
  end; cbn [tickBall clampVelocity position center z].
  - qconst; lra.
  - qconst; lra.
  - rewrite paddle2Collision_z, paddle1Collision_z. apply wallCollision_z.
Qed.

(** * The claims about the ball *)

(** C8.  At the end of every run of the ball's frame callback, whatever
    the state it started from, the paddle refs, the time step and the
    branches taken, the magnitude of the lateral velocity is at most
    [1.5 * BALL_SPEED]; and so it is in every state the game can reach. *)
Theorem lateral_speed_is_clamped (rand : nat -> Q) :
  (forall p1 p2 delta n b,
     Qabs (z (velocity (tickBall (Ball_update rand p1 p2 delta n b))))
     <= 1.5 * BALL_SPEED) /\
  (forall es,
     Qabs (z (velocity (ball (run rand es initWorld)))) <= 1.5 * BALL_SPEED).
Proof.
  split.
  - intros. apply Ball_update_vz.
  - intros es. apply (ballInv_run rand es).
Qed.

(** C9.  The magnitude of the along-width velocity is at least
    [BALL_SPEED] in every state the game can reach: it starts at
    [BALL_SPEED], the wall bounce leaves it alone, a paddle hit multiplies
    its magnitude by [1.05], a score resets it to exactly [BALL_SPEED]. *)
Theorem along_width_speed_at_least_base (rand : nat -> Q) :
  Qabs (x (velocity initBall)) == BALL_SPEED /\
  (forall b, x (velocity (wallCollision b)) = x (velocity b)) /\
  (forall p1 b,
     Qabs (x (velocity (paddle1Collision p1 b))) ==
     if paddle1Hit p1 b then Qabs (x (velocity b)) * 1.05
     else Qabs (x (velocity b))) /\
  (forall p2 b,
     Qabs (x (velocity (paddle2Collision p2 b))) ==
     if paddle2Hit p2 b then Qabs (x (velocity b)) * 1.05
     else Qabs (x (velocity b))) /\
  (forall p1 p2 delta n b,
     let t := Ball_update rand p1 p2 delta n b in
     Qabs (x (velocity (tickBall t))) ==
     match scored t with
     | [] =>
         Qabs (x (velocity
                    (paddle2Collision p2
                       (paddle1Collision p1
                          (wallCollision (integrate delta b))))))
     | _ => BALL_SPEED
     end) /\
  (forall es,
     BALL_SPEED <= Qabs (x (velocity (ball (run rand es initWorld))))).
Proof.
  split; [|split; [|split; [|split; [|split]]]].
  - reflexivity.
  - apply wallCollision_vx.
  - apply paddle1Collision_vx.
  - apply paddle2Collision_vx.
  - intros p1 p2 delta n b. unfold Ball_update, resolve; cbn [tickBall scored].
    match goal with
    | |- context [scoreRight rand (scoreLeft rand (mkTick ?b3 [] n))] =>
        destruct (score_cases rand b3 n) as [[_ E]|[[_ E]|[_ E]]];
        cbv zeta in E; rewrite E
    end; cbn [tickBall scored clampVelocity velocity x]; reflexivity.
  - intros es. apply (ballInv_run rand es).
Qed.

(** C10.  The vertical coordinate of the ball's position is [0.5], and
    that of its velocity is [0], before and after every frame of every
    run of the game, a frame with a score reset included: the ball's frame
    callback writes the other two coordinates only, and the reset writes
    [0.5] and [0] back. *)
Theorem ball_height_is_constant (rand : nat -> Q) (es : list Event) (delta : Q) :
  let w := run rand es initWorld in
  y (position (ball w)) = 0.5 /\
  y (position (ball (frame rand delta w))) = 0.5 /\
  y (velocity (ball w)) = 0 /\
  y (velocity (ball (frame rand delta w))) = 0.
Proof.
  intros w.
  pose proof (ballInv_run rand es) as (H1 & H2 & _).
  pose proof (ballInv_run rand (es ++ [Frame delta])) as (H3 & H4 & _).
  rewrite run_app in H3, H4. cbn [run step] in H3, H4.
  repeat split; assumption.
Qed.



(** C5.  If, after the position update, the ball is at
    [(ARENA_WIDTH/2 - 1.4, 0)] with velocity [(8, 0)], and the AI paddle
    position handed to the ball is at lateral [0], then the right paddle
    test fires; the update ends with along-width velocity [-8.4], the
    lateral velocity it started with, along-width position
    [ARENA_WIDTH/2 - 1.5], and no score. *)
Theorem ai_paddle_hit_scenario (rand : nat -> Q)
    (p1 : option Vector3) (v2 : Vector3) delta n (b0 : BallState) :
  let b := integrate delta b0 in
  let t := Ball_update rand p1 (Some v2) delta n b0 in
  x (position b) == ARENA_WIDTH / 2 - 1.4 ->
  z (position b) == 0 ->
  x (velocity b0) == 8 ->
  z (velocity b0) == 0 ->
  z v2 == 0 ->
  paddle2Hit (Some v2) (paddle1Collision p1 (wallCollision b)) = true /\
  x (velocity (tickBall t)) == - (8.4) /\
  z (velocity (tickBall t)) == z (velocity b0) /\
  x (position (tickBall t)) == ARENA_WIDTH / 2 - 1.5 /\
  scored t = [].
Proof.
  intros b t Hx Hz Hvx Hvz Hp.
  assert (Hw : wallCollision b = b).
  { unfold wallCollision, wallHit.
    destruct (Qltb_spec (ARENA_HEIGHT / 2 - 0.3) (z (position b)));
      [exfalso; qconst; lra|].
    destruct (Qltb_spec (z (position b)) (- ARENA_HEIGHT / 2 + 0.3));
      [exfalso; qconst; lra|].
    reflexivity. }
  assert (H1 : paddle1Collision p1 b = b).
  { unfold paddle1Collision, paddle1Hit. destruct p1 as [v1|]; [|reflexivity].
    destruct (Qltb_spec (x (position b)) (- ARENA_WIDTH / 2 + 1.5));
      [exfalso; qconst; lra | reflexivity]. }
  assert (H2 : paddle2Hit (Some v2) b = true).
  { unfold paddle2Hit.
    destruct (Qltb_spec (ARENA_WIDTH / 2 - 1.5) (x (position b)));
      [|exfalso; qconst; lra].
    destruct (Qltb_spec (Math.abs (z (position b) - z v2))
                (PADDLE_WIDTH / 2 + 0.3));
      [reflexivity|].
    exfalso. qconst. qabs; lra. }
  subst t. unfold Ball_update, resolve. fold b. rewrite Hw, H1.
  split; [exact H2|].
  unfold paddle2Collision. rewrite H2.
  match goal with
  | |- context [scoreRight rand (scoreLeft rand (mkTick ?b3 [] n))] =>
      destruct (score_cases rand b3 n) as [[Hc _]|[[Hc _]|[_ E]]];
      [ exfalso; cbn [position x] in Hc; qconst; lra
      | exfalso; cbn [position x] in Hc; qconst; lra
      | cbv zeta in E; rewrite E ]
  end.
  cbn [tickBall scored clampVelocity velocity position x z].
  split; [|split; [|split; reflexivity]].
  - change (x (velocity b)) with (x (velocity b0)).
    unfold Math.abs. rewrite Hvx. reflexivity.
  - change (z (velocity b)) with (z (velocity b0)).
    rewrite clamp_inside; [rewrite Hz, Hp, Hvz; reflexivity|].
    rewrite Hz, Hp, Hvz. qconst. lra.
Qed.

Lemma ai_paddle_hit_scenario_witness :
  let b0 := mkBall (mkVector3 3.8 0.5 0) (mkVector3 8 0 0) in
  let t := Ball_update (fun _ => 0) paddle1Ref paddle2Ref 0.1 0 b0 in
  x (position (integrate 0.1 b0)) == ARENA_WIDTH / 2 - 1.4 /\
  x (velocity (tickBall t)) == - (8.4) /\
  z (velocity (tickBall t)) == 0 /\
  x (position (tickBall t)) == ARENA_WIDTH / 2 - 1.5.
Proof.
  intros b0 t.
  assert (Hx : x (position (integrate 0.1 b0)) == ARENA_WIDTH / 2 - 1.4)
    by reflexivity.
  split; [exact Hx|].
  destruct (ai_paddle_hit_scenario (fun _ => 0) paddle1Ref
              (mkVector3 (ARENA_WIDTH / 2 - 1) 0.5 0) 0.1 0%nat b0 Hx)
    as (_ & H1 & H2 & H3 & _); try reflexivity.
  split; [exact H1|]. split; [exact H2 | exact H3].
Defined.

(** C4, as the claim has it, fails: when the ball leaves past the AI's
    edge, the player scores and the ball restarts with along-width
    velocity [-BALL_SPEED], which points at the player's side, not at the
    side that conceded. *)
Lemma serve_direction_counterexample :
  let w := run rand0 firstPoint initWorld in
  let t := Ball_update rand0 paddle1Ref paddle2Ref 0.1 (ballDraws w) (ball w) in
  gameState (app w) = playing /\
  conceded P2 (beforeScore paddle1Ref paddle2Ref 0.1 (ball w)) /\
  scored t = [P1] /\
  x (velocity (tickBall t)) == - BALL_SPEED /\
  ~ toward P2 (x (velocity (tickBall t))) /\
  toward P1 (x (velocity (tickBall t))).
Proof.
  vm_compute.
  repeat split; try reflexivity; intros H; discriminate H.
Qed.

(** C4, amended.  If the ball, as the score tests see it, is beyond the
    edge a side defends by the margin of [1], then the update makes
    exactly one [onScore] call, for the other side; the ball is put back
    at the centre; its along-width velocity has magnitude [BALL_SPEED] and
    points toward the side that scored; and its lateral velocity is
    within [[-BALL_SPEED/2, BALL_SPEED/2]]. *)
Theorem score_resets_ball (rand : nat -> Q)
    p1 p2 delta n (b : BallState) (loser : Player) :
  let t := Ball_update rand p1 p2 delta n b in
  0 <= rand n < 1 ->
  conceded loser (beforeScore p1 p2 delta b) ->
  scored t = [opponent loser] /\
  position (tickBall t) = center /\
  Qabs (x (velocity (tickBall t))) == BALL_SPEED /\
  toward (opponent loser) (x (velocity (tickBall t))) /\
  - BALL_SPEED / 2 <= z (velocity (tickBall t)) <= BALL_SPEED / 2.
Proof.
  intros t Hr Hc. subst t. unfold Ball_update, resolve.
  fold (beforeScore p1 p2 delta b).
  destruct (score_cases rand (beforeScore p1 p2 delta b) n)
    as [[Hx E]|[[Hx E]|[Hx E]]];
    cbv zeta in E; rewrite E; clear E;
    cbn [tickBall scored clampVelocity velocity position x z];
    destruct loser; cbn [conceded opponent] in *;
    try (exfalso; qconst; lra).
  - split; [reflexivity|]. split; [reflexivity|].
    assert (Hz : MathUtils.clamp ((rand n - 0.5) * BALL_SPEED)
                   (- BALL_SPEED * 1.5) (BALL_SPEED * 1.5)
                 == (rand n - 0.5) * BALL_SPEED)
      by (apply clamp_inside; qconst; lra).
    rewrite Hz. unfold toward, paddleX. qconst.
    split; [rewrite Qabs_pos; lra|]. split; lra.
  - split; [reflexivity|]. split; [reflexivity|].
    assert (Hz : MathUtils.clamp ((rand n - 0.5) * BALL_SPEED)
                   (- BALL_SPEED * 1.5) (BALL_SPEED * 1.5)
                 == (rand n - 0.5) * BALL_SPEED)
      by (apply clamp_inside; qconst; lra).
    rewrite Hz. unfold toward, paddleX. qconst.
    split; [rewrite Qabs_neg; lra|]. split; lra.
Qed.

Lemma score_resets_ball_witness :
  let w := run rand0 firstPoint initWorld in
  let t := Ball_update rand0 paddle1Ref paddle2Ref 0.1 (ballDraws w) (ball w) in
  conceded P2 (beforeScore paddle1Ref paddle2Ref 0.1 (ball w)) /\
  scored t = [P1] /\
  position (tickBall t) = center /\
  toward P1 (x (velocity (tickBall t))).
Proof.
  intros w t.
  assert (Hc : conceded P2 (beforeScore paddle1Ref paddle2Ref 0.1 (ball w)))
    by (vm_compute; reflexivity).
  assert (Hr : 0 <= rand0 (ballDraws w) < 1)
    by (split; vm_compute; [discriminate | reflexivity]).
  split; [exact Hc|].
  destruct (score_resets_ball rand0 paddle1Ref paddle2Ref 0.1
              (ballDraws w) (ball w) P2 Hr Hc)
    as (H1 & H2 & _ & H4 & _).
  split; [exact H1|]. split; [exact H2 | exact H4].
Defined.

(** * The match state machine *)

Lemma Ball_update_scored_center (rand : nat -> Q) p1 p2 delta n b :
  scored (Ball_update rand p1 p2 delta n b) <> [] ->
  position (tickBall (Ball_update rand p1 p2 delta n b)) = center.
Proof.
  unfold Ball_update, resolve; cbn [scored tickBall].
  match goal with
  | |- context [scoreRight rand (scoreLeft rand (mkTick ?b3 [] n))] =>
      destruct (score_cases rand b3 n) as [[_ E]|[[_ E]|[_ E]]];
      cbv zeta in E; rewrite E
  end; cbn [tickBall scored clampVelocity position]; congruence.
Qed.

Lemma handleScore_P1 a :
  score1 (handleScore P1 a) = S (score1 a) /\
  score2 (handleScore P1 a) = score2 a /\
  ((WINNING_SCORE <= S (score1 a))%nat ->
   gameState (handleScore P1 a) = gameover /\
   winner (handleScore P1 a) = Some P1) /\
  ((S (score1 a) < WINNING_SCORE)%nat ->
   gameState (handleScore P1 a) = gameState a /\
   winner (handleScore P1 a) = winner a).
Proof.
  unfold handleScore. rewrite Nat.add_1_r.
  destruct (Nat.leb_spec WINNING_SCORE (S (score1 a))); cbn;
    repeat split; auto; intros; lia.
Qed.

Lemma handleScore_P2 a :
  score1 (handleScore P2 a) = score1 a /\
  score2 (handleScore P2 a) = S (score2 a) /\
  ((WINNING_SCORE <= S (score2 a))%nat ->
   gameState (handleScore P2 a) = gameover /\
   winner (handleScore P2 a) = Some P2) /\
  ((S (score2 a) < WINNING_SCORE)%nat ->
   gameState (handleScore P2 a) = gameState a /\
   winner (handleScore P2 a) = winner a).
Proof.
  unfold handleScore. rewrite Nat.add_1_r.
  destruct (Nat.leb_spec WINNING_SCORE (S (score2 a))); cbn;
    repeat split; auto; intros; lia.
Qed.

(** What an event does to the React state: nothing, one [onScore] call
    during play with the ball back at the centre, or a game start. *)
Lemma step_app (rand : nat -> Q) e w :
  (app (step rand e w) = app w /\
   (ball (step rand e w) = ball w \/ gameState (app w) = playing))
  \/ (exists pl,
        gameState (app w) = playing /\
        app (step rand e w) = handleScore pl (app w) /\
        position (ball (step rand e w)) = center)
  \/ (e = Click /\ gameState (app w) <> playing /\
      app (step rand e w) = startGame (app w) /\
      ball (step rand e w) = ball w).
Proof.
  destruct e as [key|delta|]; cbn [step].
  - left. cbn. auto.
  - destruct (gameState (app w)) eqn:E.
    + left. destruct (frame_paused rand delta w) as (H1 & H2 & _);
        [congruence | auto].
    + destruct (frame_playing rand delta w E) as [H1 H2]. cbv zeta in H1, H2.
      pose proof (Ball_update_scored_center rand paddle1Ref paddle2Ref delta
                    (ballDraws w) (ball w)) as Hc.
      destruct (scored_cases rand paddle1Ref paddle2Ref delta
                  (ballDraws w) (ball w)) as [Hs|[Hs|Hs]];
        cbv zeta in Hs; rewrite Hs in H1, Hc; cbn [fold_left] in H1.
      * left. auto.
      * right; left. exists P1. rewrite H2. repeat split; auto.
        apply Hc; discriminate.
      * right; left. exists P2. rewrite H2. repeat split; auto.
        apply Hc; discriminate.
    + left. destruct (frame_paused rand delta w) as (H1 & H2 & _);
        [congruence | auto].
  - destruct (gameState (app w)) eqn:E.
    + right; right. cbn. repeat split; auto; congruence.
    + left. auto.
    + right; right. cbn. repeat split; auto; congruence.
Qed.

Lemma appInv_step (rand : nat -> Q) e w : appInv w -> appInv (step rand e w).
Proof.
  intros [Hs Hc]. unfold appInv.
  destruct (step_app rand e w)
    as [[Ha Hb]|[(pl & Hp & Ha & Hb)|(_ & Hn & Ha & Hb)]].
  - rewrite Ha. split; [exact Hs|].
    intros Hn. destruct Hb as [->|Hb]; [auto | congruence].
  - rewrite Ha. split; [|intros _; exact Hb].
    destruct (Hs Hp) as [H1 H2].
    destruct pl.
    + destruct (handleScore_P1 (app w)) as (E1 & E2 & Hw & Hl).
      rewrite E1, E2. intros Hg.
      destruct (Nat.le_gt_cases WINNING_SCORE (S (score1 (app w)))) as [L|L].
      * destruct (Hw L) as [G _]. congruence.
      * split; [exact L | exact H2].
    + destruct (handleScore_P2 (app w)) as (E1 & E2 & Hw & Hl).
      rewrite E1, E2. intros Hg.
      destruct (Nat.le_gt_cases WINNING_SCORE (S (score2 (app w)))) as [L|L].
      * destruct (Hw L) as [G _]. congruence.
      * split; [exact H1 | exact L].
  - rewrite Ha. cbn. split.
    + intros _. unfold WINNING_SCORE. lia.
    + congruence.
Qed.

Lemma appInv_run (rand : nat -> Q) es : appInv (run rand es initWorld).
Proof.
  apply (run_invariant rand appInv).
  - intros e w. apply appInv_step.
  - split; cbn; [discriminate | reflexivity].
Qed.

(** Outside play, only the button changes the React state. *)
Lemma paused_frozen (rand : nat -> Q) es w :
  gameState (app w) <> playing -> Forall notClick es ->
  app (run rand es w) = app w /\ ball (run rand es w) = ball w.
Proof.
  revert w. induction es as [|e es IH]; intros w Hg Hes; cbn [run].
  - auto.
  - inversion Hes as [|e' es' He Hes']; subst.
    assert (Hstep : app (step rand e w) = app w /\ ball (step rand e w) = ball w).
    { destruct e as [key|delta|]; cbn [step].
      - auto.
      - destruct (frame_paused rand delta w Hg) as (H1 & H2 & _). auto.
      - destruct He. }
    destruct Hstep as [Ha Hb].
    destruct (IH (step rand e w)) as [Ha' Hb']; [congruence | assumption |].
    split; congruence.
Qed.

(** C7.  In a reachable state in play, every event leaves both scores
    as they are or adds one point to exactly one of them (as one
    [handleScore] call does); an update that brings a score to
    [WINNING_SCORE] ends the game in that same update with that side as
    winner, and otherwise play goes on; and once the game is over, the
    scores, phase and winner stay as they are whatever frames and keys
    follow, until the button is clicked. *)
Theorem scores_grow_until_the_win (rand : nat -> Q)
    (es : list Event) (e : Event) (es' : list Event) :
  let w := run rand es initWorld in
  let w' := step rand e w in
  gameState (app w) = playing ->
  Forall notClick es' ->
  (forall a,
     score1 (handleScore P1 a) = S (score1 a) /\
     score2 (handleScore P1 a) = score2 a /\
     score1 (handleScore P2 a) = score1 a /\
     score2 (handleScore P2 a) = S (score2 a)) /\
  ((score1 (app w') = score1 (app w) /\ score2 (app w') = score2 (app w)) \/
   (score1 (app w') = S (score1 (app w)) /\ score2 (app w') = score2 (app w)) \/
   (score1 (app w') = score1 (app w) /\ score2 (app w') = S (score2 (app w)))) /\
  ((WINNING_SCORE <= score1 (app w'))%nat ->
   gameState (app w') = gameover /\ winner (app w') = Some P1) /\
  ((WINNING_SCORE <= score2 (app w'))%nat ->
   gameState (app w') = gameover /\ winner (app w') = Some P2) /\
  ((score1 (app w') < WINNING_SCORE)%nat ->
   (score2 (app w') < WINNING_SCORE)%nat ->
   gameState (app w') = playing /\ winner (app w') = winner (app w)) /\
  (gameState (app w') = gameover -> app (run rand es' w') = app w').
Proof.
  intros w w' Hg Hes'.
  destruct (appInv_run rand es) as [Hs _]. fold w in Hs.
  destruct (Hs Hg) as [L1 L2].
  split.
  { intros a. destruct (handleScore_P1 a) as (A & B & _).
    destruct (handleScore_P2 a) as (C & D & _). auto. }
  assert (Hfrozen : gameState (app w') = gameover ->
                    app (run rand es' w') = app w').
  { intros G. apply paused_frozen; [congruence | assumption]. }
  subst w'.
  destruct (step_app rand e w)
    as [[Ha _]|[(pl & _ & Ha & _)|(_ & Hn & _)]]; [| |congruence].
  - rewrite Ha in *. repeat split; auto; intros; lia.
  - rewrite Ha in *. destruct pl.
    + destruct (handleScore_P1 (app w)) as (E1 & E2 & Hw & Hl).
      rewrite E1, E2.
      split; [right; left; auto|].
      split; [exact Hw|].
      split; [intros; lia|].
      split; [|exact Hfrozen].
      intros L _. destruct (Hl L) as [G W]. split; congruence.
    + destruct (handleScore_P2 (app w)) as (E1 & E2 & Hw & Hl).
      rewrite E1, E2.
      split; [right; right; auto|].
      split; [intros; lia|].
      split; [exact Hw|].
      split; [|exact Hfrozen].
      intros _ L. destruct (Hl L) as [G W]. split; congruence.
Qed.

Lemma scores_grow_until_the_win_witness :
  let w := run rand0 game_4_4 initWorld in
  let w' := step rand0 (Frame 0.1) w in
  (gameState (app w) = playing /\
   score1 (app w) = 4%nat /\ score2 (app w) = 4%nat) /\
  (score1 (app w') = 5%nat /\ score2 (app w') = 4%nat) /\
  (gameState (app w') = gameover /\ winner (app w') = Some P1) /\
  app (run rand0 [KeyDown "w"; Frame 0.1; Frame 0.1] w') = app w'.
Proof.
  intros w w'.
  assert (Hg : gameState (app w) = playing) by (vm_compute; reflexivity).
  assert (Hes : Forall notClick [KeyDown "w"; Frame 0.1; Frame 0.1])
    by (repeat constructor).
  assert (H5 : score1 (app w') = 5%nat /\ score2 (app w') = 4%nat)
    by (vm_compute; split; reflexivity).
  destruct (scores_grow_until_the_win rand0 game_4_4 (Frame 0.1)
              [KeyDown "w"; Frame 0.1; Frame 0.1] Hg Hes)
    as (_ & _ & Hw & _ & _ & Hf).
  fold w in Hw, Hf. fold w' in Hw, Hf.
  assert (Hover : gameState (app w') = gameover /\ winner (app w') = Some P1).
  { apply Hw. destruct H5 as [-> _]. unfold WINNING_SCORE. lia. }
  split; [split; [exact Hg | vm_compute; split; reflexivity]|].
  split; [exact H5|].
  split; [exact Hover | apply Hf, Hover].
Defined.

(** C1, as the claim has it, fails: [startGame] writes the scores, the
    winner and the phase, and nothing else.  After the 5-4 game in which
    the player pressed [s] once, the button leaves both crabs where they
    were, off their initial lateral position. *)
Lemma restart_keeps_paddles_counterexample :
  let w := run rand0 game_5_4 initWorld in
  let w' := step rand0 Click w in
  gameState (app w) = gameover /\
  score1 (app w) = 5%nat /\ score2 (app w) = 4%nat /\
  gameState (app w') = playing /\
  ~ position_z (paddle1 w') == position_z initPaddle /\
  ~ position_z (paddle2 w') == position_z initPaddle.
Proof.
  vm_compute.
  repeat split; try reflexivity; intros H; discriminate H.
Qed.

(** C1, amended.  If the button is clicked in a reachable game-over
    state, whatever the score, then afterwards both scores are [0], no
    winner is recorded, the phase is playing, and the ball is at its
    initial centred position; both crabs, the player's target included,
    are left exactly as they were. *)
Theorem restart_from_game_over (rand : nat -> Q) (es : list Event) :
  let w := run rand es initWorld in
  let w' := step rand Click w in
  gameState (app w) = gameover ->
  score1 (app w') = 0%nat /\ score2 (app w') = 0%nat /\
  winner (app w') = None /\ gameState (app w') = playing /\
  position (ball w') = position initBall /\
  paddle1 w' = paddle1 w /\ paddle2 w' = paddle2 w.
Proof.
  intros w w' Hg.
  destruct (appInv_run rand es) as [_ Hc]. fold w in Hc.
  subst w'. cbn [step]. rewrite Hg. cbn.
  repeat split. apply Hc. congruence.
Qed.

Lemma restart_from_game_over_witness :
  let w := run rand0 game_5_4 initWorld in
  let w' := step rand0 Click w in
  gameState (app w) = gameover /\
  score1 (app w') = 0%nat /\ score2 (app w') = 0%nat /\
  winner (app w') = None /\ gameState (app w') = playing /\
  position (ball w') = position initBall /\
  paddle1 w' = paddle1 w.
Proof.
  intros w w'.
  assert (Hg : gameState (app w) = gameover) by (vm_compute; reflexivity).
  split; [exact Hg|].
  destruct (restart_from_game_over rand0 game_5_4 Hg)
    as (H1 & H2 & H3 & H4 & H5 & H6 & _).
  split; [exact H1|]. split; [exact H2|]. split; [exact H3|].
  split; [exact H4|]. split; [exact H5 | exact H6].
Defined.

(** * The crabs *)


Lemma handleKeyDown_inRange key p :
  inRange (targetZ p) -> inRange (targetZ (handleKeyDown key p)).
Proof.
  unfold inRange, handleKeyDown, Math.max, Math.min. intros H.
  destruct (keyUp key), (keyDown key); cbn [targetZ position_z];
    qconst; qcase; lra.
Qed.


Lemma keyUp_not_keyDown key : keyUp key = true -> keyDown key = false.
Proof.
  unfold keyUp, keyDown. intros H. apply orb_true_iff in H.
  destruct H as [H|H]; apply String.eqb_eq in H; subst; reflexivity.
Qed.

Lemma keyDown_not_keyUp key : keyDown key = true -> keyUp key = false.
Proof.
  unfold keyUp, keyDown. intros H. apply orb_true_iff in H.
  destruct H as [H|H]; apply String.eqb_eq in H; subst; reflexivity.
Qed.

Lemma handleKeyDown_up key p :
  keyUp key = true ->
  handleKeyDown key p =
  mkPaddle (position_z p)
    (Math.max (targetZ p - 0.5) (- ARENA_HEIGHT / 2 + PADDLE_WIDTH / 2)).
Proof.
  intros H. unfold handleKeyDown. rewrite H, (keyUp_not_keyDown key H).
  reflexivity.
Qed.

Lemma handleKeyDown_down key p :
  keyDown key = true ->
  handleKeyDown key p =
  mkPaddle (position_z p)
    (Math.min (targetZ p + 0.5) (ARENA_HEIGHT / 2 - PADDLE_WIDTH / 2)).
Proof.
  intros H. unfold handleKeyDown. rewrite H, (keyDown_not_keyUp key H).
  reflexivity.
Qed.

















(** * Beyond the claims *)

(** ** The player cannot reach the ball *)

Lemma sameGame_step (rand : nat -> Q) e w1 w2 :
  sameGame w1 w2 -> sameGame (step rand e w1) (step rand e w2).
Proof.
  destruct w1 as [a1 p1 q1 b1 r1 n1], w2 as [a2 p2 q2 b2 r2 n2].
  unfold sameGame; cbn [app paddle2 ball ballPositionRef ballDraws].
  intros (-> & -> & -> & -> & ->).
  destruct e as [key|delta|].
  - cbn [step app paddle2 ball ballPositionRef ballDraws]. auto.
  - cbn [step]. unfold frame, Ball_useFrame;
      cbn [app paddle1 paddle2 ball ballPositionRef ballDraws].
    destruct (isPaused a2);
      cbn [app paddle2 ball ballPositionRef ballDraws]; auto.
  - cbn [step app]. destruct (gameState a2);
      cbn [app paddle2 ball ballPositionRef ballDraws]; auto.
Qed.

Lemma sameGame_key (rand : nat -> Q) key w :
  sameGame (step rand (KeyDown key) w) w.
Proof. unfold sameGame. cbn. auto. Qed.

Lemma sameGame_trans w1 w2 w3 :
  sameGame w1 w2 -> sameGame w2 w3 -> sameGame w1 w3.
Proof.
  unfold sameGame. intros (A & B & C & D & E) (A' & B' & C' & D' & E').
  repeat split; congruence.
Qed.

Lemma sameGame_run (rand : nat -> Q) es w1 w2 :
  sameGame w1 w2 -> sameGame (run rand es w1) (run rand (eraseKeys es) w2).
Proof.
  revert w1 w2. induction es as [|e es IH]; intros w1 w2 H; cbn [run eraseKeys filter].
  - exact H.
  - destruct e as [key|delta|]; cbn [isKey negb run].
    + apply IH. eapply sameGame_trans; [apply sameGame_key | exact H].
    + apply IH. apply sameGame_step, H.
    + apply IH. apply sameGame_step, H.
Qed.

(** X1.  Key presses never reach the ball: the collision tests read
    [paddle1Ref], which nothing writes.  Taking every [keydown] out of a
    run leaves the scores, the phase, the winner, the ball, the AI's crab,
    the ball position shared with the AI and the random draws all the same. *)
Theorem keys_do_not_change_the_game (rand : nat -> Q) (es : list Event) :
  sameGame (run rand es initWorld) (run rand (eraseKeys es) initWorld).
Proof.
  apply sameGame_run. unfold sameGame. auto.
Qed.

(** X2.  Both crabs' positions are out of the ball's sight: a frame
    does the same to the ball, the scores and the random draws whatever
    the two crabs' positions and the player's target are. *)
Theorem frame_ignores_the_crabs (rand : nat -> Q) (delta : Q)
    (w : World) (c1 c2 : Paddle) :
  let w' := mkWorld (app w) c1 c2 (ball w) (ballPositionRef w) (ballDraws w) in
  ball (frame rand delta w') = ball (frame rand delta w) /\
  app (frame rand delta w') = app (frame rand delta w) /\
  ballPositionRef (frame rand delta w') = ballPositionRef (frame rand delta w) /\
  ballDraws (frame rand delta w') = ballDraws (frame rand delta w).
Proof.
  destruct w as [a p q b r n].
  unfold frame, Ball_useFrame;
    cbn [app paddle1 paddle2 ball ballPositionRef ballDraws].
  destruct (isPaused a);
    cbn [app paddle2 ball ballPositionRef ballDraws]; auto.
Qed.

(** ** The player's target *)

Lemma targets_step (rand : nat -> Q) e w :
  inRange (targetZ (paddle1 w)) /\ targetZ (paddle2 w) = 0 ->
  inRange (targetZ (paddle1 (step rand e w))) /\
  targetZ (paddle2 (step rand e w)) = 0.
Proof.
  intros [H1 H2]. destruct e as [key|delta|]; cbn [step].
  - cbn [paddle1 paddle2]. split; [now apply handleKeyDown_inRange | exact H2].
  - destruct (frame_paddles rand delta w) as [-> ->].
    unfold CrabPaddle_useFrame; cbn [targetZ]. auto.
  - destruct (gameState (app w)); cbn [paddle1 paddle2]; auto.
Qed.

(** X3.  In every state the game can reach, whatever the keys and the
    time steps, the player's target is within the legal range, and the
    AI's own [targetZ] ref is still [0]: no handler is registered for it. *)
Theorem targets_stay_legal (rand : nat -> Q) (es : list Event) :
  inRange (targetZ (paddle1 (run rand es initWorld))) /\
  targetZ (paddle2 (run rand es initWorld)) = 0.
Proof.
  apply (run_invariant rand
           (fun w => inRange (targetZ (paddle1 w)) /\ targetZ (paddle2 w) = 0)).
  - intros e w. apply targets_step.
  - split; [|reflexivity]. unfold inRange; cbn. qconst. lra.
Qed.

(** ** Phase, scores and winner *)

Lemma matchInv_step (rand : nat -> Q) e w :
  matchInv (app w) -> matchInv (app (step rand e w)).
Proof.
  intros H.
  destruct (step_app rand e w)
    as [[Ha _]|[(pl & Hp & Ha & _)|(_ & _ & Ha & _)]]; rewrite Ha.
  - exact H.
  - unfold matchInv in H. rewrite Hp in H. destruct H as (L1 & L2 & W).
    destruct pl.
    + destruct (handleScore_P1 (app w)) as (E1 & E2 & Hw & Hl).
      destruct (Nat.le_gt_cases WINNING_SCORE (S (score1 (app w)))) as [L|L].
      * destruct (Hw L) as [G Wn]. unfold matchInv. rewrite G, E1, E2, Wn.
        left. repeat split; [lia | exact L2].
      * destruct (Hl L) as [G Wn]. unfold matchInv. rewrite G, Hp, E1, E2, Wn.
        auto.
    + destruct (handleScore_P2 (app w)) as (E1 & E2 & Hw & Hl).
      destruct (Nat.le_gt_cases WINNING_SCORE (S (score2 (app w)))) as [L|L].
      * destruct (Hw L) as [G Wn]. unfold matchInv. rewrite G, E1, E2, Wn.
        right. repeat split; [lia | exact L1].
      * destruct (Hl L) as [G Wn]. unfold matchInv. rewrite G, Hp, E1, E2, Wn.
        auto.
  - unfold matchInv; cbn. unfold WINNING_SCORE. repeat split; lia.
Qed.

Lemma matchInv_run (rand : nat -> Q) es : matchInv (app (run rand es initWorld)).
Proof.
  apply (run_invariant rand (fun w => matchInv (app w))).
  - intros e w. apply matchInv_step.
  - unfold matchInv; cbn. auto.
Qed.

(** X4.  In every state the game can reach: in the menu the scores are
    [0-0]; in play both scores are below [WINNING_SCORE] and no winner is
    recorded; and once the game is over exactly one side has exactly
    [WINNING_SCORE] points, the other has fewer, and the recorded winner
    is that side.  So no score ever exceeds [WINNING_SCORE]. *)
Theorem phase_scores_and_winner_agree (rand : nat -> Q) (es : list Event) :
  let a := app (run rand es initWorld) in
  matchInv a /\
  (score1 a <= WINNING_SCORE)%nat /\ (score2 a <= WINNING_SCORE)%nat /\
  (score1 a + score2 a < 2 * WINNING_SCORE)%nat /\
  (winner a <> None <-> gameState a = gameover).
Proof.
  intros a. pose proof (matchInv_run rand es) as H. fold a in H.
  split; [exact H|].
  unfold matchInv in H. unfold WINNING_SCORE in *.
  destruct (gameState a);
    [ destruct H as (-> & -> & ->)
    | destruct H as (L1 & L2 & ->)
    | destruct H as [(-> & -> & L)|(-> & -> & L)] ];
    repeat split; try lia; try congruence; try discriminate.
Qed.

(** X5.  Whenever the game-over overlay is on screen, its heading says
    who reached [WINNING_SCORE]: "You Win!" exactly when the player has
    [WINNING_SCORE] points, "AI Wins!" exactly when the AI has. *)
Theorem game_over_title_names_the_winner (rand : nat -> Q) (es : list Event) :
  let a := app (run rand es initWorld) in
  gameState a = gameover ->
  (gameOverTitle a = "You Win!"%string <-> score1 a = WINNING_SCORE) /\
  (gameOverTitle a = "AI Wins!"%string <-> score2 a = WINNING_SCORE).
Proof.
  intros a Hg. pose proof (matchInv_run rand es) as H. fold a in H.
  unfold matchInv in H. rewrite Hg in H. unfold gameOverTitle.
  destruct H as [(-> & E & L)|(-> & E & L)]; rewrite E;
    repeat split; intros; try reflexivity; try discriminate; lia.
Qed.

Lemma game_over_title_names_the_winner_witness :
  let a := app (run rand0 game_5_4 initWorld) in
  gameState a = gameover /\
  (gameOverTitle a = "You Win!"%string <-> score1 a = WINNING_SCORE).
Proof.
  intros a.
  assert (Hg : gameState a = gameover) by (vm_compute; reflexivity).
  split; [exact Hg|].
  destruct (game_over_title_names_the_winner rand0 game_5_4 Hg) as [H _].
  exact H.
Defined.

(** ** More about the ball *)

Lemma integrate_wall_vx delta b :
  x (velocity (wallCollision (integrate delta b))) = x (velocity b).
Proof. rewrite wallCollision_vx. reflexivity. Qed.

(** X6.  A paddle hit and a score never share an update, and the two
    paddle tests never both fire: when either fires, the update makes no
    [onScore] call and no random draw, leaves the ball on that paddle's
    collision plane, and sends it away from that paddle at [1.05] times
    the speed it came with. *)
Theorem paddle_hit_means_no_score (rand : nat -> Q)
    p1 p2 delta n (b : BallState) :
  let bw := wallCollision (integrate delta b) in
  let t := Ball_update rand p1 p2 delta n b in
  paddle1Hit p1 bw = true \/ paddle2Hit p2 (paddle1Collision p1 bw) = true ->
  scored t = [] /\ draws t = n /\
  (paddle1Hit p1 bw && paddle2Hit p2 (paddle1Collision p1 bw) = false)%bool /\
  x (position (tickBall t)) =
    (if paddle1Hit p1 bw then - ARENA_WIDTH / 2 + 1.5
     else ARENA_WIDTH / 2 - 1.5) /\
  x (velocity (tickBall t)) ==
    (if paddle1Hit p1 bw then Qabs (x (velocity b)) * 1.05
     else - Qabs (x (velocity b)) * 1.05).
Proof.
  intros bw t H. subst t. unfold Ball_update, resolve. fold bw.
  pose proof (integrate_wall_vx delta b) as Hvx. fold bw in Hvx.
  destruct (paddle1Hit p1 bw) eqn:H1.
  - pose proof (paddle_hits_exclusive p1 p2 bw H1) as H2. rewrite H2.
    assert (E2 : paddle2Collision p2 (paddle1Collision p1 bw)
                 = paddle1Collision p1 bw).
    { unfold paddle2Collision. rewrite H2. now destruct p2. }
    rewrite E2. unfold paddle1Collision. rewrite H1.
    destruct p1 as [v1|]; [|discriminate H1].
    match goal with
    | |- context [scoreRight rand (scoreLeft rand (mkTick ?b3 [] n))] =>
        destruct (score_cases rand b3 n) as [[Hc _]|[[Hc _]|[_ E]]];
        [ exfalso; cbn [position x] in Hc; qconst; lra
        | exfalso; cbn [position x] in Hc; qconst; lra
        | cbv zeta in E; rewrite E ]
    end.
    cbn [tickBall scored draws clampVelocity position velocity x].
    rewrite Hvx. unfold Math.abs. repeat split; reflexivity.
  - destruct H as [H|H2]; [discriminate H|]. rewrite H2.
    assert (E1 : paddle1Collision p1 bw = bw).
    { unfold paddle1Collision. rewrite H1. now destruct p1. }
    rewrite E1 in *. unfold paddle2Collision. rewrite H2.
    destruct p2 as [v2|]; [|discriminate H2].
    match goal with
    | |- context [scoreRight rand (scoreLeft rand (mkTick ?b3 [] n))] =>
        destruct (score_cases rand b3 n) as [[Hc _]|[[Hc _]|[_ E]]];
        [ exfalso; cbn [position x] in Hc; qconst; lra
        | exfalso; cbn [position x] in Hc; qconst; lra
        | cbv zeta in E; rewrite E ]
    end.
    cbn [tickBall scored draws clampVelocity position velocity x].
    rewrite Hvx. unfold Math.abs. repeat split; reflexivity.
Qed.

Lemma paddle_hit_means_no_score_witness :
  let b := mkBall (mkVector3 3.8 0.5 1) (mkVector3 8 0 4) in
  let t := Ball_update rand0 paddle1Ref paddle2Ref 0.1 0 b in
  paddle2Hit paddle2Ref
    (paddle1Collision paddle1Ref (wallCollision (integrate 0.1 b))) = true /\
  scored t = [] /\
  x (position (tickBall t)) = ARENA_WIDTH / 2 - 1.5.
Proof.
  intros b t.
  assert (H2 : paddle2Hit paddle2Ref
                 (paddle1Collision paddle1Ref (wallCollision (integrate 0.1 b)))
               = true) by (vm_compute; reflexivity).
  split; [exact H2|].
  destruct (paddle_hit_means_no_score rand0 paddle1Ref paddle2Ref 0.1 0%nat b
              (or_intror H2)) as (Hs & _ & _ & Hx & _).
  split; [exact Hs | exact Hx].
Defined.

Lemma Ball_update_x (rand : nat -> Q) p1 p2 delta n b :
  - ARENA_WIDTH / 2 - 1
  <= x (position (tickBall (Ball_update rand p1 p2 delta n b)))
  <= ARENA_WIDTH / 2 + 1.
Proof.
  unfold Ball_update, resolve; cbn [tickBall].
  match goal with
  | |- context [scoreRight rand (scoreLeft rand (mkTick ?b3 [] n))] =>
      destruct (score_cases rand b3 n) as [[_ E]|[[_ E]|[Hx E]]];
      cbv zeta in E; rewrite E
  end; cbn [tickBall clampVelocity position center x].
  - qconst; lra.
  - qconst; lra.
  - exact Hx.
Qed.

(** X7.  The ball never ends an update outside the box: its along-width
    position is within [ARENA_WIDTH/2 + 1] of the centre and its lateral
    position within [ARENA_HEIGHT/2 - 0.3], after every update from any
    state and in every state the game can reach. *)
Theorem ball_stays_in_the_box (rand : nat -> Q) :
  (forall p1 p2 delta n b,
     let b' := tickBall (Ball_update rand p1 p2 delta n b) in
     (- ARENA_WIDTH / 2 - 1 <= x (position b') <= ARENA_WIDTH / 2 + 1) /\
     (- ARENA_HEIGHT / 2 + 0.3 <= z (position b') <= ARENA_HEIGHT / 2 - 0.3)) /\
  (forall es,
     let b' := ball (run rand es initWorld) in
     (- ARENA_WIDTH / 2 - 1 <= x (position b') <= ARENA_WIDTH / 2 + 1) /\
     (- ARENA_HEIGHT / 2 + 0.3 <= z (position b') <= ARENA_HEIGHT / 2 - 0.3)).
Proof.
  split.
  - intros. split; [apply Ball_update_x | apply Ball_update_z].
  - intros es.
    apply (run_invariant rand
             (fun w =>
                (- ARENA_WIDTH / 2 - 1 <= x (position (ball w))
                 <= ARENA_WIDTH / 2 + 1) /\
                (- ARENA_HEIGHT / 2 + 0.3 <= z (position (ball w))
                 <= ARENA_HEIGHT / 2 - 0.3))).
    + intros e w H.
      destruct (step_ball rand e w) as [->|(delta & _ & ->)]; [exact H|].
      split; [apply Ball_update_x | apply Ball_update_z].
    + cbn. qconst. repeat split; lra.
Qed.

(** X8.  The ball's frame callback calls [Math.random ()] once for each
    [onScore] call it makes and never otherwise: an update of the ball
    makes as many draws as [onScore] calls, at most one, and over a frame
    the count of the ball's draws grows by exactly the points awarded.
    (The draws that [Arena] and [Bubbles] make when they render are not the
    ball's and are not counted.) *)
Theorem one_draw_per_score (rand : nat -> Q) :
  (forall p1 p2 delta n b,
     let t := Ball_update rand p1 p2 delta n b in
     draws t = (n + List.length (scored t))%nat /\ (List.length (scored t) <= 1)%nat) /\
  (forall delta w,
     let w' := frame rand delta w in
     (ballDraws w' + (score1 (app w) + score2 (app w)) =
      ballDraws w + (score1 (app w') + score2 (app w')))%nat).
Proof.
  assert (U : forall p1 p2 delta n b,
            let t := Ball_update rand p1 p2 delta n b in
            draws t = (n + List.length (scored t))%nat /\
            (List.length (scored t) <= 1)%nat).
  { intros p1 p2 delta n b. unfold Ball_update, resolve; cbn [scored draws].
    match goal with
    | |- context [scoreRight rand (scoreLeft rand (mkTick ?b3 [] n))] =>
        destruct (score_cases rand b3 n) as [[_ E]|[[_ E]|[_ E]]];
        cbv zeta in E; rewrite E
    end; cbn [scored draws List.length]; lia. }
  split; [exact U|].
  intros delta w w'. subst w'.
  destruct (gameState (app w)) eqn:Hg.
  - destruct (frame_paused rand delta w) as (-> & _ & _ & ->);
      [congruence | lia].
  - destruct (frame_playing rand delta w Hg) as [Ha _]. cbv zeta in Ha.
    assert (Hd : ballDraws (frame rand delta w) =
                 draws (Ball_update rand paddle1Ref paddle2Ref delta
                          (ballDraws w) (ball w))).
    { unfold frame, Ball_useFrame, isPaused;
        cbn [app paddle1 paddle2 ball ballPositionRef ballDraws].
      rewrite Hg. reflexivity. }
    rewrite Ha, Hd.
    destruct (U paddle1Ref paddle2Ref delta (ballDraws w) (ball w)) as [-> _].
    destruct (scored_cases rand paddle1Ref paddle2Ref delta
                (ballDraws w) (ball w)) as [Hs|[Hs|Hs]];
      cbv zeta in Hs; rewrite Hs; cbn [fold_left List.length].
    + lia.
    + destruct (handleScore_P1 (app w)) as (-> & -> & _). lia.
    + destruct (handleScore_P2 (app w)) as (-> & -> & _). lia.
  - destruct (frame_paused rand delta w) as (-> & _ & _ & ->);
      [congruence | lia].
Qed.

(** X9.  A ball that was inside the lateral bounds and is carried past
    one by a forward time step comes off the wall test exactly on that
    bound and moving back inward. *)
Theorem wall_bounce_points_inward (delta : Q) (b0 : BallState) :
  let b' := wallCollision (integrate delta b0) in
  0 <= delta ->
  - ARENA_HEIGHT / 2 + 0.3 <= z (position b0) <= ARENA_HEIGHT / 2 - 0.3 ->
  wallHit (integrate delta b0) = true ->
  (z (position b') == ARENA_HEIGHT / 2 - 0.3 /\ z (velocity b') < 0) \/
  (z (position b') == - ARENA_HEIGHT / 2 + 0.3 /\ 0 < z (velocity b')).
Proof.
  intros b' Hd Hz Hhit. subst b'. unfold wallCollision. rewrite Hhit.
  cbn [position velocity z]. unfold wallHit in Hhit.
  cbn [integrate position velocity z] in *.
  unfold MathUtils.clamp, Math.max, Math.min.
  qconst.
  destruct (Qltb_spec (370 # 100) (z (position b0) + z (velocity b0) * delta))
    as [H1|H1];
    destruct (Qltb_spec (z (position b0) + z (velocity b0) * delta)
                (-370 # 100)) as [H2|H2];
    cbn [orb] in Hhit; try discriminate Hhit; qcase;
    try (exfalso; lra).
  - left. split; [lra|]. nra.
  - right. split; [lra|]. nra.
Qed.

Lemma wall_bounce_points_inward_witness :
  let b0 := mkBall (mkVector3 0 0.5 3.5) (mkVector3 8 0 4) in
  let b' := wallCollision (integrate 0.1 b0) in
  wallHit (integrate 0.1 b0) = true /\
  ((z (position b') == ARENA_HEIGHT / 2 - 0.3 /\ z (velocity b') < 0) \/
   (z (position b') == - ARENA_HEIGHT / 2 + 0.3 /\ 0 < z (velocity b'))).
Proof.
  intros b0 b'.
  assert (Hhit : wallHit (integrate 0.1 b0) = true) by (vm_compute; reflexivity).
  split; [exact Hhit|].
  apply (wall_bounce_points_inward 0.1 b0); [| |exact Hhit].
  - vm_compute; discriminate.
  - split; vm_compute; discriminate.
Defined.

(** ** More about the keys *)

(** X10.  An up key followed by a down key brings a legal target back
    where it was, unless the up press was cut short by the lower bound: the
    target ends at the larger of where it began and half a unit above the
    lower bound.  The crab's position is not touched. *)
Theorem up_then_down_restores_the_target (kU kD : string) (p : Paddle) :
  let p' := handleKeyDown kD (handleKeyDown kU p) in
  keyUp kU = true -> keyDown kD = true ->
  inRange (targetZ p) ->
  targetZ p' ==
    Math.max (targetZ p) (- ARENA_HEIGHT / 2 + PADDLE_WIDTH / 2 + 0.5) /\
  position_z p' = position_z p.
Proof.
  intros p' HU HD Hr. subst p'.
  rewrite (handleKeyDown_up kU p HU), (handleKeyDown_down kD _ HD).
  cbn [targetZ position_z]. split; [|reflexivity].
  unfold inRange, Math.max, Math.min in *. qconst. qcase; lra.
Qed.

Lemma up_then_down_restores_the_target_witness :
  let p := mkPaddle 0 1 in
  inRange (targetZ p) /\
  targetZ (handleKeyDown "s" (handleKeyDown "ArrowUp" p)) ==
    Math.max 1 (- ARENA_HEIGHT / 2 + PADDLE_WIDTH / 2 + 0.5).
Proof.
  intros p.
  assert (Hr : inRange (targetZ p)) by (split; vm_compute; discriminate).
  split; [exact Hr|].
  destruct (up_then_down_restores_the_target "ArrowUp" "s" p
              eq_refl eq_refl Hr) as [H _].
  exact H.
Defined.

(** X11.  Pressing a down key [n] times from a target not above the
    upper bound moves it by [n] half units, capped at the upper bound; an
    up key does the same downward, capped at the lower bound. *)
Theorem repeated_presses_add_up (kU kD : string) (n : nat) (p : Paddle) :
  keyUp kU = true -> keyDown kD = true ->
  inRange (targetZ p) ->
  targetZ (Nat.iter n (handleKeyDown kD) p) ==
    Math.min (targetZ p + inject_Z (Z.of_nat n) * 0.5)
      (ARENA_HEIGHT / 2 - PADDLE_WIDTH / 2) /\
  targetZ (Nat.iter n (handleKeyDown kU) p) ==
    Math.max (targetZ p - inject_Z (Z.of_nat n) * 0.5)
      (- ARENA_HEIGHT / 2 + PADDLE_WIDTH / 2).
Proof.
  intros HU HD Hr. induction n as [|n [IHd IHu]].
  - cbn [Nat.iter nat_rect Z.of_nat]. unfold inRange, Math.min, Math.max in *.
    change (inject_Z 0) with 0. qconst. split; qcase; lra.
  - rewrite !Nat.iter_succ.
    rewrite (handleKeyDown_down kD _ HD), (handleKeyDown_up kU _ HU).
    cbn [targetZ].
    assert (E : inject_Z (Z.of_nat (S n)) == inject_Z (Z.of_nat n) + 1).
    { rewrite Nat2Z.inj_succ. unfold Z.succ. rewrite inject_Z_plus.
      reflexivity. }
    revert IHd IHu E.
    generalize (targetZ (Nat.iter n (handleKeyDown kD) p)).
    generalize (targetZ (Nat.iter n (handleKeyDown kU) p)).
    generalize (inject_Z (Z.of_nat (S n))).
    assert (N : 0 <= inject_Z (Z.of_nat n)).
    { change 0 with (inject_Z 0). rewrite <- Zle_Qle. lia. }
    revert N. generalize (inject_Z (Z.of_nat n)).
    intros m N m' u d.
    unfold inRange, Math.min, Math.max in *. qconst.
    qcase; intros IHd IHu E; split; lra.
Qed.

Lemma repeated_presses_add_up_witness :
  inRange (targetZ initPaddle) /\
  targetZ (Nat.iter 3 (handleKeyDown "s") initPaddle) ==
    Math.min (0 + inject_Z 3 * 0.5) (ARENA_HEIGHT / 2 - PADDLE_WIDTH / 2).
Proof.
  assert (Hr : inRange (targetZ initPaddle)) by (split; vm_compute; discriminate).
  split; [exact Hr|].
  destruct (repeated_presses_add_up "w" "s" 3 initPaddle eq_refl eq_refl Hr)
    as [H _].
  exact H.
Defined.

(** ** Bubbles *)

Lemma pow2_pos (e : Z) : 0 < pow2 e.
Proof. destruct e; reflexivity. Qed.

Lemma roundHalfEven_nonneg (n : Z) (d : positive) :
  (0 <= n)%Z -> (0 <= roundHalfEven n d)%Z.
Proof.
  intros H. unfold roundHalfEven.
  assert (Hq : (0 <= n / Zpos d)%Z) by (apply Z.div_pos; lia).
  destruct (2 * (n mod Zpos d) ?= Zpos d)%Z; [|lia|lia].
  destruct (Z.even (n / Zpos d)); lia.
Qed.

Lemma roundPos_nonneg (prec emin : Z) (n d : positive) :
  0 <= roundPos prec emin n d.
Proof.
  unfold roundPos. apply Qmult_le_0_compat.
  - change 0 with (inject_Z 0). rewrite <- Zle_Qle.
    apply roundHalfEven_nonneg. cbn [Qmult Qnum].
    pose proof (pow2_pos (- Z.max (ilog2 n d - (prec - 1)) emin)) as P.
    unfold Qlt in P. cbn [Qnum Qden] in P. lia.
  - apply Qlt_le_weak, pow2_pos.
Qed.

(** Rounding keeps a number on its side of zero. *)
Lemma roundTo_nonneg (prec emin : Z) (q : Q) :
  0 <= q -> 0 <= roundTo prec emin q.
Proof.
  intros H. unfold roundTo.
  assert (Hr : 0 <= Qred q) by (rewrite Qred_correct; exact H).
  unfold Qle in Hr. cbn [Qnum Qden] in Hr.
  destruct (Qnum (Qred q)); [apply Qle_refl | apply roundPos_nonneg | lia].
Qed.

Lemma write_length i v arr : List.length (write i v arr) = List.length arr.
Proof.
  revert i. induction arr as [|a arr IH]; intros [|i]; cbn; auto.
Qed.

Lemma nth_write_eq i v arr d :
  (i < List.length arr)%nat -> nth i (write i v arr) d = v.
Proof.
  revert i. induction arr as [|a arr IH]; intros [|i] H; cbn in *;
    try lia; auto. apply IH. lia.
Qed.

Lemma nth_write_neq i j v arr d :
  i <> j -> nth j (write i v arr) d = nth j arr d.
Proof.
  revert i j. induction arr as [|a arr IH]; intros [|i] [|j] H; cbn;
    try reflexivity; try congruence. apply IH. congruence.
Qed.

Lemma Bubbles_body_length delta arr i :
  List.length (Bubbles_body delta arr i) = List.length arr.
Proof.
  unfold Bubbles_body.
  destruct (10 <? _); rewrite ?write_length; reflexivity.
Qed.

Lemma Bubbles_body_nth delta arr i j :
  (i * 3 + 1 < List.length arr)%nat ->
  nth j (Bubbles_body delta arr i) 0 =
  if (j =? i * 3 + 1)%nat then rise delta (nth j arr 0) else nth j arr 0.
Proof.
  intros H. unfold Bubbles_body, rise.
  destruct (Nat.eqb_spec j (i * 3 + 1)) as [->|Hj].
  - rewrite (nth_write_eq _ _ arr 0 H).
    destruct (10 <? _); [|apply nth_write_eq; exact H].
    apply nth_write_eq. rewrite write_length. exact H.
  - destruct (10 <? _); rewrite ?nth_write_neq by congruence; reflexivity.
Qed.

(** The loop, turn by turn. *)
Lemma Bubbles_loop delta arr n :
  (n * 3 <= List.length arr)%nat ->
  let r := fold_left (Bubbles_body delta) (seq 0 n) arr in
  List.length r = List.length arr /\
  forall j,
    nth j r 0 =
    if ((j mod 3 =? 1) && (j / 3 <? n))%nat
    then rise delta (nth j arr 0) else nth j arr 0.
Proof.
  induction n as [|n IH]; intros Hn; cbv zeta.
  - cbn [seq fold_left]. split; [reflexivity|]. intros j.
    rewrite andb_false_r. reflexivity.
  - rewrite seq_S, fold_left_app. cbn [Nat.add fold_left].
    destruct IH as [Hl Hv]; [lia|].
    split; [rewrite Bubbles_body_length; exact Hl|].
    intros j. rewrite Bubbles_body_nth by (rewrite Hl; lia).
    rewrite Hv.
    pose proof (Nat.div_mod_eq j 3) as Hdm.
    pose proof (Nat.mod_upper_bound j 3) as Hm.
    destruct (Nat.eqb_spec j (n * 3 + 1)) as [->|Hj].
    + replace ((n * 3 + 1) mod 3)%nat with 1%nat
        by (rewrite Nat.add_comm, Nat.Div0.mod_add; reflexivity).
      replace ((n * 3 + 1) / 3)%nat with n
        by (rewrite Nat.add_comm, Nat.div_add by lia; reflexivity).
      rewrite Nat.ltb_irrefl, andb_false_r.
      cbn [Nat.eqb andb]. rewrite (proj2 (Nat.ltb_lt n (S n))) by lia.
      reflexivity.
    + destruct (Nat.eqb_spec (j mod 3) 1) as [E|E]; cbn [andb];
        [|reflexivity].
      destruct (Nat.ltb_spec (j / 3) n), (Nat.ltb_spec (j / 3) (S n));
        try reflexivity; exfalso; lia.
Qed.

(** X14.  On the [count * 3] coordinates of the bubbles, one frame
    touches the heights only: the array keeps its length; every second
    coordinate of a triple [v] becomes the single nearest to the double
    [v + delta * 0.5], or [0] when that stored single is above [10]; and
    the other two coordinates of each triple are as they were. *)
Theorem bubbles_rise_and_wrap (delta : Q) (posArray : list Q) (j : nat) :
  List.length posArray = (count * 3)%nat ->
  (j < count * 3)%nat ->
  List.length (Bubbles_useFrame delta posArray) = List.length posArray /\
  nth j (Bubbles_useFrame delta posArray) 0 =
    if (j mod 3 =? 1)%nat then rise delta (nth j posArray 0)
    else nth j posArray 0.
Proof.
  intros Hl Hj. unfold Bubbles_useFrame.
  destruct (Bubbles_loop delta posArray count) as [H1 H2]; [lia|].
  split; [exact H1|]. rewrite H2.
  assert (Hd : (j / 3 <? count)%nat = true).
  { apply Nat.ltb_lt. apply Nat.Div0.div_lt_upper_bound. lia. }
  rewrite Hd, andb_true_r. reflexivity.
Qed.

Lemma bubbles_rise_and_wrap_witness :
  let posArray := repeat 9.9 (count * 3) in
  nth 4 (Bubbles_useFrame 1 posArray) 0 = rise 1 9.9 /\
  nth 5 (Bubbles_useFrame 1 posArray) 0 = 9.9.
Proof.
  intros posArray.
  assert (Hl : List.length posArray = (count * 3)%nat) by apply repeat_length.
  destruct (bubbles_rise_and_wrap 1 posArray 4 Hl) as [_ H4];
    [unfold count; lia|].
  destruct (bubbles_rise_and_wrap 1 posArray 5 Hl) as [_ H5];
    [unfold count; lia|].
  split; [exact H4 | exact H5].
Defined.

(** X15.  With a forward time step, heights that are all within
    [[0, 10]] are all within [[0, 10]] after the frame: no bubble sinks
    below the floor or stays above the ceiling. *)
Theorem bubbles_stay_in_the_water (delta : Q) (posArray : list Q) (i : nat) :
  0 <= delta ->
  List.length posArray = (count * 3)%nat ->
  (forall k, (k < count)%nat -> 0 <= nth (k * 3 + 1) posArray 0 <= 10) ->
  (i < count)%nat ->
  0 <= nth (i * 3 + 1) (Bubbles_useFrame delta posArray) 0 <= 10.
Proof.
  intros Hd Hl Hall Hi. unfold Bubbles_useFrame.
  destruct (Bubbles_loop delta posArray count) as [_ H2]; [lia|].
  rewrite H2.
  replace ((i * 3 + 1) mod 3)%nat with 1%nat
    by (rewrite Nat.add_comm, Nat.Div0.mod_add; reflexivity).
  replace ((i * 3 + 1) / 3)%nat with i
    by (rewrite Nat.add_comm, Nat.div_add by lia; reflexivity).
  rewrite (proj2 (Nat.ltb_lt i count) Hi). cbn [Nat.eqb andb].
  specialize (Hall i Hi). unfold rise.
  assert (Hs : 0 <= binary32 (binary64 (nth (i * 3 + 1) posArray 0
                                         + binary64 (delta * 0.5)))).
  { apply roundTo_nonneg, roundTo_nonneg.
    pose proof (roundTo_nonneg 53 (-1074) (delta * 0.5)) as Hd5.
    fold binary64 in Hd5. lra. }
  qcase; lra.
Qed.

Lemma bubbles_stay_in_the_water_witness :
  let posArray := repeat 9.9 (count * 3) in
  0 <= nth (7 * 3 + 1) (Bubbles_useFrame 1 posArray) 0 <= 10.
Proof.
  intros posArray.
  apply (bubbles_stay_in_the_water 1 posArray 7).
  - vm_compute; discriminate.
  - apply repeat_length.
  - intros k Hk. unfold posArray.
    rewrite nth_repeat_lt by (unfold count in *; lia).
    split; vm_compute; discriminate.
  - unfold count; lia.
Defined.

(** ** Outside play *)

(** X16.  Until the button is clicked for the first time nothing
    happens to the match: whatever frames and keys come, the phase is
    still the menu, the scores are [0-0], the ball rests at the centre
    with its opening velocity, and no random number has been drawn. *)
Theorem nothing_moves_in_the_menu (rand : nat -> Q) (es : list Event) :
  Forall notClick es ->
  let w := run rand es initWorld in
  app w = initApp /\ ball w = initBall /\ ballDraws w = 0%nat.
Proof.
  intros Hes.
  assert (G : forall w, gameState (app w) = menu ->
                        app (run rand es w) = app w /\
                        ball (run rand es w) = ball w /\
                        ballDraws (run rand es w) = ballDraws w).
  { induction Hes as [|e es He Hes IH]; intros w Hg; cbn [run]; [auto|].
    assert (S1 : app (step rand e w) = app w /\ ball (step rand e w) = ball w /\
                 ballDraws (step rand e w) = ballDraws w).
    { destruct e as [key|delta|]; cbn [step].
      - cbn. auto.
      - destruct (frame_paused rand delta w) as (A & B & _ & D);
          [congruence | auto].
      - destruct He. }
    destruct S1 as (A & B & D).
    destruct (IH (step rand e w)) as (A' & B' & D'); [congruence|].
    repeat split; congruence. }
  apply (G initWorld). reflexivity.
Qed.

Lemma nothing_moves_in_the_menu_witness :
  let es := [KeyDown "s"; Frame 0.1; Frame 0.1; KeyDown "w"] in
  Forall notClick es /\ ball (run rand0 es initWorld) = initBall.
Proof.
  intros es.
  assert (Hes : Forall notClick es) by (repeat constructor).
  split; [exact Hes|].
  destruct (nothing_moves_in_the_menu rand0 es Hes) as (_ & H & _).
  exact H.
Defined.
